(** * mac_lookup: a shallow embedding of [src/mac_lookup/mac_lookup.py]

    The script validates MAC address strings, asks the macaddress.io API
    about each of them and prints a table.  This file embeds the class
    [MacAddressIO] and the [__main__] block, and proves the properties its
    specification states about them.

    Modelling conventions
    - A Python [str] is a [string]; each [ascii] stands for the code point
      of the same number (0..255).
    - A raised exception is a value of [exn]; a function that can raise
      returns [exn + A].
    - The network ([requests.get]), the JSON decoder ([json.loads]) and the
      iteration order of a Python [set] are not part of the repository: they
      are Section variables of the embedding.
    - An instance of [MacAddressIO] is its attribute dictionary, a
      [gmap string pyval]. *)

From Stdlib Require Import Ascii.
From Stdlib Require String.
From stdpp Require Import base strings list gmap pretty.

#[local] Set Warnings "-register-all".
Local Open Scope N_scope.

(** ** Characters and the string methods the script calls *)

Definition ord (c : ascii) : N := Ascii.N_of_ascii c.
Definition chr (n : N) : ascii := Ascii.ascii_of_N n.

(** [str.isspace] on the code points below 256. *)
Definition isspace (c : ascii) : bool :=
  let n := ord c in
  ((9 <=? n) && (n <=? 13)) || ((28 <=? n) && (n <=? 32))
  || (n =? 133) || (n =? 160).

(** [str.lower] on one code point below 256: the ASCII capitals and the
    Latin-1 capitals (0xC0..0xDE without the multiplication sign 0xD7). *)
Definition lower_char (c : ascii) : ascii :=
  let n := ord c in
  if ((65 <=? n) && (n <=? 90))
     || ((192 <=? n) && (n <=? 222) && negb (n =? 215))
  then chr (n + 32) else c.

Fixpoint lower (s : string) : string :=
  match s with
  | EmptyString => EmptyString
  | String c s' => String (lower_char c) (lower s')
  end.

Fixpoint lstrip (s : string) : string :=
  match s with
  | EmptyString => EmptyString
  | String c s' => if isspace c then lstrip s' else s
  end.

Fixpoint rstrip (s : string) : string :=
  match s with
  | EmptyString => EmptyString
  | String c s' =>
      match rstrip s' with
      | EmptyString => if isspace c then EmptyString else String c EmptyString
      | r => String c r
      end
  end.

(** [mac.strip()] *)
Definition strip (s : string) : string := rstrip (lstrip s).

(** [s.split(sep)] for a one-character separator: the pieces between the
    separators, in order; never the empty list. *)
Fixpoint str_split (sep : ascii) (s : string) : list string :=
  match s with
  | EmptyString => [EmptyString]
  | String c s' =>
      if Ascii.eqb c sep then EmptyString :: str_split sep s'
      else match str_split sep s' with
           | [] => [String c EmptyString]
           | p :: ps => String c p :: ps
           end
  end.

(** ** The regular expression of [validate_hex_only]

    [re.fullmatch(r"^[0-9A-F:.]+$", mac)].  The pattern is a sequence of
    three tokens: the anchor [^], a character class under [+], the anchor [$].
    [fullmatch] is a backtracking matcher for such token sequences with
    Python's meaning of the anchors: [^] holds at the start of the string,
    [$] at its end and just before a newline that ends it; a full match has
    to consume the whole string. *)

Inductive class_item :=
  | CRange (lo hi : ascii)
  | CLit (c : ascii).

Inductive token :=
  | TCaret
  | TDollar
  | TClassPlus (cls : list class_item).

Definition in_item (c : ascii) (i : class_item) : bool :=
  match i with
  | CRange lo hi => (ord lo <=? ord c) && (ord c <=? ord hi)
  | CLit d => Ascii.eqb c d
  end.

Definition in_class (cls : list class_item) (c : ascii) : bool :=
  existsb (in_item c) cls.

Definition newline : ascii := chr 10.

Definition at_dollar (s : string) : bool :=
  match s with
  | EmptyString => true
  | String c EmptyString => Ascii.eqb c newline
  | _ => false
  end.

(** [match_here p at_start s]: the tokens [p] match exactly the rest [s] of
    the subject; [at_start] tells whether [s] is the whole subject. *)
Fixpoint match_here (p : list token) (at_start : bool) (s : string) : bool :=
  match p with
  | [] => match s with EmptyString => true | _ => false end
  | TCaret :: p' => at_start && match_here p' at_start s
  | TDollar :: p' => at_dollar s && match_here p' at_start s
  | TClassPlus cls :: p' =>
      (fix plus (s : string) : bool :=
         match s with
         | EmptyString => false
         | String c s' =>
             in_class cls c && (plus s' || match_here p' false s')
         end) s
  end.

Definition fullmatch (p : list token) (s : string) : bool :=
  match_here p true s.

(** [r"^[0-9A-F:.]+$"] *)
Definition hex_class : list class_item :=
  [CRange "0" "9"; CRange "A" "F"; CLit ":"; CLit "."]%char.

Definition hex_only_pattern : list token :=
  [TCaret; TClassPlus hex_class; TDollar].

(** ** Exceptions *)

Inductive exn :=
  | ValueError (msg : string)
  | AttributeError (msg : string)
  | TypeError (msg : string)
  | RecursionError (msg : string)
  | SystemExit (msg : string).

(** The two ways [json.loads] fails on a [str]: the text is not JSON
    ([json.JSONDecodeError], a subclass of [ValueError]), or it is nested
    deeper than the interpreter's recursion limit ([RecursionError], which is
    not a [ValueError]). *)
Inductive decode_error :=
  | NotJSON (msg : string)
  | TooDeep (msg : string).

(** ** Validation *)

(** [__validate_api_key_exists]: [not api_key] holds for [None] and for the
    empty string. *)
Definition validate_api_key_exists (api_key : option string) : exn + unit :=
  match api_key with
  | None | Some EmptyString => inl (ValueError "API key was was not provided.")
  | Some _ => inr tt
  end.

Definition validate_hex_only (mac : string) : exn + unit :=
  if fullmatch hex_only_pattern mac then inr tt
  else inl (ValueError ("MAC Address (" +:+ mac +:+ ") did not pass hex-only validation.")).

Definition validate_mac_length (mac : string) : exn + unit :=
  if bool_decide (String.length mac ∈ [12%nat; 17%nat]) then inr tt
  else inl (ValueError ("MAC address (" +:+ mac +:+ ") did not pass length validation.")).

(** [[check(mac) for check in validation_checks]]: the checks run in the
    order of the list and the first one that raises ends the comprehension. *)
Fixpoint run_checks (checks : list (string → exn + unit)) (mac : string) : exn + unit :=
  match checks with
  | [] => inr tt
  | check :: rest =>
      match check mac with
      | inl e => inl e
      | inr _ => run_checks rest mac
      end
  end.

Definition validate_mac (mac : string) : exn + unit :=
  let validation_checks := [validate_mac_length; validate_hex_only] in
  run_checks validation_checks mac.

(** ** Python values and the [MacAddressIO] object *)

(** What [json.loads] can return.  A [dict] is the list of its items in
    insertion order; a float is kept as its literal. *)
Inductive pyval :=
  | PNone
  | PBool (b : bool)
  | PInt (z : Z)
  | PFloat (literal : string)
  | PStr (s : string)
  | PList (l : list pyval)
  | PDict (items : list (string * pyval)).

Definition type_name (v : pyval) : string :=
  match v with
  | PNone => "NoneType"
  | PBool _ => "bool"
  | PInt _ => "int"
  | PFloat _ => "float"
  | PStr _ => "str"
  | PList _ => "list"
  | PDict _ => "dict"
  end.

Definition no_attribute (v : pyval) (name : string) : exn :=
  AttributeError ("'" +:+ type_name v +:+ "' object has no attribute '" +:+ name +:+ "'").

Fixpoint assoc (k : string) (items : list (string * pyval)) : option pyval :=
  match items with
  | [] => None
  | (k', v) :: rest => if bool_decide (k' = k) then Some v else assoc k rest
  end.

(** [data.get(key)]: only a [dict] has the method; a missing key gives
    [None]. *)
Definition py_get (data : pyval) (key : string) : exn + pyval :=
  match data with
  | PDict items => inr (default PNone (assoc key items))
  | _ => inl (no_attribute data "get")
  end.

(** [data.items()] *)
Definition py_items (data : pyval) : exn + list (string * pyval) :=
  match data with
  | PDict items => inr items
  | _ => inl (no_attribute data "items")
  end.

(** [setattr(self, name, v)] on an instance of a plain class, the instance
    being its attribute dictionary.  Three names are data descriptors of
    [object] and do not go to the dictionary: assigning [__dict__] replaces
    the whole dictionary and wants a [dict], [__class__] wants a class and
    [__weakref__] is read-only. *)
Definition setattr (self : gmap string pyval) (name : string) (v : pyval)
  : exn + gmap string pyval :=
  if bool_decide (name = "__dict__") then
    match v with
    | PDict items => inr (list_to_map items)
    | _ => inl (TypeError ("__dict__ must be set to a dictionary, not a '" +:+ type_name v +:+ "'"))
    end
  else if bool_decide (name = "__class__") then
    inl (TypeError ("__class__ must be set to a class, not '" +:+ type_name v +:+ "' object"))
  else if bool_decide (name = "__weakref__") then
    inl (AttributeError "attribute '__weakref__' of 'MacAddressIO' objects is not writable")
  else inr (<[name := v]> self).

(** [{setattr(self, k.lower(), v) for k, v in data.items()}], item by item. *)
Fixpoint setattr_items (self : gmap string pyval) (items : list (string * pyval))
  : exn + gmap string pyval :=
  match items with
  | [] => inr self
  | (k, v) :: rest =>
      match setattr self (lower k) v with
      | inl e => inl e
      | inr self' => setattr_items self' rest
      end
  end.

(** [MacAddressIO.__init__(self, mac, data)] *)
Definition MacAddressIO (mac : string) (data : pyval) : exn + gmap string pyval :=
  let self : gmap string pyval := {[ "mac" := PStr mac ]} in
  match py_items data with
  | inl e => inl e
  | inr items => setattr_items self items
  end.

(** [result.name] for the two names [__main__] reads, [mac] and
    [companyname]; neither is an attribute of the class, so the instance
    dictionary decides. *)
Definition getattr (self : gmap string pyval) (name : string) : exn + pyval :=
  match self !! name with
  | Some v => inr v
  | None => inl (AttributeError ("'MacAddressIO' object has no attribute '" +:+ name +:+ "'"))
  end.

(** ** The network and the monad of the lookups *)

Record Request := {
  url : string;
  params : list (string * string);
  headers : list (string * option string)
}.

Record Response := {
  status_code : Z;
  text : string
}.

(** The state of a run is the list of the requests sent so far, oldest
    first. *)
Definition World : Type := list Request.

(** A computation that may send requests and may raise. *)
Definition M (A : Type) : Type := World → (exn + A) * World.

Definition ret {A} (a : A) : M A := λ w, (inr a, w).
Definition raise {A} (e : exn) : M A := λ w, (inl e, w).
Definition bind {A B} (m : M A) (k : A → M B) : M B :=
  λ w, match m w with
       | (inl e, w') => (inl e, w')
       | (inr a, w') => k a w'
       end.
Definition lift {A} (r : exn + A) : M A :=
  match r with inl e => raise e | inr a => ret a end.

Notation "'do' x <- m ; k" := (bind m (λ x, k))
  (at level 10, x name, m at level 100, k at level 200,
   format "'[v' 'do'  x  <-  m ; '/' k ']'").
Notation "'run' m ; k" := (bind m (λ _, k))
  (at level 10, m at level 100, k at level 200,
   format "'[v' 'run'  m ; '/' k ']'").

Inductive Output :=
  | PrintStr (s : string)
  | PrintTable (field_names : list string) (rows : list (list pyval)).

(** [table.add_row([result.mac, result.companyname])] for each result. *)
Fixpoint add_rows (results : list (gmap string pyval)) : exn + list (list pyval) :=
  match results with
  | [] => inr []
  | result :: rest =>
      match getattr result "mac" with
      | inl e => inl e
      | inr m =>
          match getattr result "companyname" with
          | inl e => inl e
          | inr c =>
              match add_rows rest with
              | inl e => inl e
              | inr rows => inr ([m; c] :: rows)
              end
          end
      end
  end.

(** What a run of the script leaves behind: the lines and tables printed, in
    order, and the exception that no handler caught, if any. *)
Record Run := {
  printed : list Output;
  uncaught : option exn
}.

Definition banner : string :=
  "Exception caught while making requests to the api.macaddress.io API".

(** ** Vocabulary of the statements *)

(** The request [make_request] sends for [mac]. *)
Definition request_for (mac : string) (api_key : option string) : Request :=
  {| url := "https://api.macaddress.io/v1/";
     params := [("output", "json"); ("search", mac)];
     headers := [("x-Authentication-Token", api_key)] |}.

(** The message of the [ValueError] raised on a status other than 200. *)
Definition status_message (mac : string) (status : Z) : string :=
  "There was a problem gathering details for " +:+ mac
  +:+ ". Response: " +:+ pretty status.

(** The character set [[0-9A-F:.]] written out, and its hexadecimal digits. *)
Definition spec_hex_digits : list ascii :=
  ["0"; "1"; "2"; "3"; "4"; "5"; "6"; "7"; "8"; "9";
   "A"; "B"; "C"; "D"; "E"; "F"]%char.

Definition spec_charset : list ascii := spec_hex_digits ++ [":"; "."]%char.

Definition chars (s : string) : list ascii := String.list_ascii_of_string s.

(** The specification's condition on a MAC string: length exactly 12 or
    exactly 17, every character in the set. *)
Definition spec_valid_mac (mac : string) : bool :=
  bool_decide (String.length mac = 12%nat ∨ String.length mac = 17%nat)
  && forallb (λ c, bool_decide (c ∈ spec_charset)) (chars mac).

(** What the handler of [SystemExit] in [__main__] leaves behind: the banner,
    then the message. *)
Definition fatal_path (r : Run) : Prop :=
  ∃ msg, r = {| printed := [PrintStr banner; PrintStr msg]; uncaught := None |}.

(** A legal iteration order of [set(l)]. *)
Definition set_iteration (set_iter : list string → list string) : Prop :=
  ∀ l, NoDup (set_iter l) ∧ ∀ x, x ∈ set_iter l ↔ x ∈ l.

(** ** Environments for the examples *)

(** Two iteration orders: the distinct elements in input order (a repeated
    element at the place of its last occurrence), and the same reversed. *)
Definition first_seen (l : list string) : list string := remove_dups l.
Definition last_seen (l : list string) : list string := reverse (remove_dups l).

(** An API that answers every request with the given status and body, and
    one that cannot be reached. *)
Definition api_answers (status : Z) (body : string) : World → Request → string + Response :=
  λ _ _, inr {| status_code := status; text := body |}.

Definition api_down : World → Request → string + Response :=
  λ _ _, inl "Connection refused".

(** A decoder that knows the bodies of a table. *)
Definition loads_table (table : list (string * pyval)) (s : string)
  : decode_error + pyval :=
  match assoc s table with
  | Some v => inr v
  | None => inl (NotJSON "Expecting value: line 1 column 1 (char 0)")
  end.

Definition quoted (s : string) : string :=
  String (chr 34) (s +:+ String (chr 34) EmptyString).

(** The body [{"vendorDetails": {"companyName": "Acme"}}] and its decoding. *)
Definition acme_text : string :=
  "{" +:+ quoted "vendorDetails" +:+ ": {" +:+ quoted "companyName" +:+ ": "
  +:+ quoted "Acme" +:+ "}}".

Definition acme_data : pyval :=
  PDict [("vendorDetails", PDict [("companyName", PStr "Acme")])].

(** A body without [vendorDetails], and one whose [vendorDetails] has the
    key [__dict__]. *)
Definition empty_text : string := "{}".
Definition empty_data : pyval := PDict [].

Definition dunder_text : string :=
  "{" +:+ quoted "vendorDetails" +:+ ": {" +:+ quoted "__dict__" +:+ ": {}}}".
Definition dunder_data : pyval :=
  PDict [("vendorDetails", PDict [("__dict__", PDict [])])].

Definition mock_loads : string → decode_error + pyval :=
  loads_table [(acme_text, acme_data); (empty_text, empty_data);
               (dunder_text, dunder_data)].

(** ** Further vocabulary *)

(** [sep.join(pieces)], the inverse of [split]. *)
Fixpoint str_join (sep : ascii) (pieces : list string) : string :=
  match pieces with
  | [] => EmptyString
  | [p] => p
  | p :: rest => p +:+ String sep (str_join sep rest)
  end.

(** The attribute names [setattr] does not store in the instance
    dictionary. *)
Definition special_name (name : string) : bool :=
  bool_decide (name ∈ ["__dict__"; "__class__"; "__weakref__"]).

(** An API that answers from the request alone, whatever was sent before. *)
Definition stateless (requests_get : World → Request → string + Response) : Prop :=
  ∀ w w' rq, requests_get w rq = requests_get w' rq.

(** More bodies for the examples: a list, a [vendorDetails] without a company
    name, and one with two keys that collide after lower-casing. *)
Definition list_text : string := "[]".
Definition list_data : pyval := PList [].

Definition anonymous_text : string :=
  "{" +:+ quoted "vendorDetails" +:+ ": {" +:+ quoted "countryCode" +:+ ": "
  +:+ quoted "US" +:+ "}}".
Definition anonymous_data : pyval :=
  PDict [("vendorDetails", PDict [("countryCode", PStr "US")])].

Definition colliding_fields : list (string * pyval) :=
  [("companyName", PStr "Acme"); ("COMPANYNAME", PStr "Apex")].

(** A decoder that gives up on every body for its depth. *)
Definition deep_loads : string → decode_error + pyval :=
  λ _, inl (TooDeep "maximum recursion depth exceeded").

Definition more_loads : string → decode_error + pyval :=
  loads_table [(acme_text, acme_data); (list_text, list_data);
               (anonymous_text, anonymous_data)].

(** ** The steps of [lookupAll] in the specification's terms

    The specification describes [lookupAll] by its steps and [query] by its
    outcomes.  The definitions below follow its words and use none of the
    functions of the embedding: a splitter that scans the string once, a trim
    by reversal, the validity condition [spec_valid_mac], and the outcomes of
    a query read from the answer of the network. *)

(** Splitting on commas, scanning from the left with the piece under
    construction. *)
Fixpoint spec_split_from (piece : string) (s : string) : list string :=
  match s with
  | EmptyString => [piece]
  | String c s' =>
      if bool_decide (c = ","%char) then piece :: spec_split_from EmptyString s'
      else spec_split_from (piece +:+ String c EmptyString) s'
  end.

Definition spec_split (s : string) : list string :=
  spec_split_from EmptyString s.

(** Trimming: drop the whitespace at the front, and at the back by doing the
    same on the reversed string. *)
Fixpoint drop_blanks (l : list ascii) : list ascii :=
  match l with
  | [] => []
  | c :: l' => if isspace c then drop_blanks l' else l
  end.

Definition spec_trim (s : string) : string :=
  String.string_of_list_ascii
    (rev (drop_blanks (rev (drop_blanks (String.list_ascii_of_string s))))).

(** The record of section 3: the MAC and the vendor fields under their
    lower-cased names. *)
Record LookupResult := {
  result_mac : string;
  vendor_fields : list (string * pyval)
}.

(** How [lookupAll] ends: with one of the three errors of the
    specification, or with the results. *)
Inductive spec_failure :=
  | ValidationError (mac : string)
  | ApiError (mac : string) (status : Z)
  | TransportFailure (err : string).

(** The vendor fields of a decoded body: the entries of its [vendorDetails]
    object under lower-cased names.  The specification says nothing about a
    body without such an object, about names that collide after lower-casing
    or with [mac], or about the names [setattr] treats specially: there the
    result is [None]. *)
Definition spec_vendor_fields (data : pyval) : option (list (string * pyval)) :=
  match data with
  | PDict body =>
      match assoc "vendorDetails" body with
      | Some (PDict fields) =>
          let named := (λ kv : string * pyval, (lower kv.1, kv.2)) <$> fields in
          if bool_decide (NoDup named.*1
                          ∧ Forall (λ n, n ≠ "mac" ∧ special_name n = false) named.*1)
          then Some named else None
      | _ => None
      end
  | _ => None
  end.

(** The object that stands for a [LookupResult], and the exception that
    stands for a failure: a [ValidationError] is one of the two messages of
    the validators. *)
Definition to_object (r : LookupResult) : gmap string pyval :=
  <["mac" := PStr (result_mac r)]> (list_to_map (vendor_fields r)).

Definition implements (out : spec_failure + list LookupResult)
    (res : exn + list (gmap string pyval)) : Prop :=
  match out with
  | inl (ValidationError mac) =>
      res = inl (ValueError ("MAC address (" +:+ mac
                             +:+ ") did not pass length validation."))
      ∨ res = inl (ValueError ("MAC Address (" +:+ mac
                               +:+ ") did not pass hex-only validation."))
  | inl (ApiError mac status) => res = inl (ValueError (status_message mac status))
  | inl (TransportFailure err) => res = inl (SystemExit err)
  | inr results => res = inr (to_object <$> results)
  end.

(** ** The lookups *)

Section Lookup.

(** [requests.get(url, params=..., headers=...)] as the environment answers
    it, given the requests already sent: [inl err] is a raised
    [requests.exceptions.RequestException] whose [str] is [err]. *)
Variable requests_get : World → Request → string + Response.

(** [json.loads]: the decoded value, or the error it raises. *)
Variable json_loads : string → decode_error + pyval.

(** The order in which a [for] loop visits [set(l)]: each distinct element of
    [l] once, in an order the language does not fix. *)
Variable set_iter : list string → list string.

(** The [try] of [make_request] around [requests.get]: a
    [RequestException] becomes [SystemExit(err)]. *)
Definition get (rq : Request) : M Response :=
  λ w, match requests_get w rq with
       | inl err => (inl (SystemExit err), w ++ [rq])
       | inr response => (inr response, w ++ [rq])
       end.

Definition loads (s : string) : M pyval :=
  match json_loads s with
  | inl (NotJSON msg) => raise (ValueError msg)
  | inl (TooDeep msg) => raise (RecursionError msg)
  | inr data => ret data
  end.

Definition make_request (mac : string) (api_key : option string)
  : M (gmap string pyval) :=
  let url := "https://api.macaddress.io/v1/" in
  let headers := [("x-Authentication-Token", api_key)] in
  let params := [("output", "json"); ("search", mac)] in
  do response <- get {| url := url; params := params; headers := headers |};
  if bool_decide (status_code response = 200%Z) then
    do data <- loads (text response);
    do vendorDetails <- lift (py_get data "vendorDetails");
    lift (MacAddressIO mac vendorDetails)
  else
    raise (ValueError ("There was a problem gathering details for " +:+ mac
                       +:+ ". Response: " +:+ pretty (status_code response))).

(** The [for] loop of [get_mac_details], over the elements still to visit. *)
Fixpoint for_mac (macs : list string) (api_key : option string)
    (mac_results : list (gmap string pyval)) : M (list (gmap string pyval)) :=
  match macs with
  | [] => ret mac_results
  | mac :: rest =>
      let mac := strip mac in
      run lift (validate_mac mac);
      do r <- make_request mac api_key;
      for_mac rest api_key (mac_results ++ [r])
  end.

Definition get_mac_details (mac_addresses : string) (api_key : option string)
  : M (list (gmap string pyval)) :=
  run lift (validate_api_key_exists api_key);
  let mac_results := [] in
  for_mac (set_iter (str_split "," mac_addresses)) api_key mac_results.

(** The [__main__] block after argument parsing: [args_mac] is [args.mac]
    (already upper-cased by the parser), [API_KEY] the environment variable
    or [None]. *)
Definition main (args_mac : string) (API_KEY : option string) (w : World)
  : Run * World :=
  match get_mac_details args_mac API_KEY w with
  | (inr results, w') =>
      match results with
      | _ :: _ =>
          match add_rows results with
          | inr rows =>
              ({| printed := [PrintTable ["MAC"; "Company"] rows]; uncaught := None |}, w')
          | inl e => ({| printed := []; uncaught := Some e |}, w')
          end
      | [] => ({| printed := [PrintStr "No results found."]; uncaught := None |}, w')
      end
  | (inl (ValueError msg), w') =>
      ({| printed := [PrintStr msg]; uncaught := None |}, w')
  | (inl (SystemExit msg), w') =>
      ({| printed := [PrintStr banner; PrintStr msg]; uncaught := None |}, w')
  | (inl e, w') => ({| printed := []; uncaught := Some e |}, w')
  end.

(** [query] as the specification describes it: one GET with the key in the
    header and the MAC as parameter; a network failure is a transport
    failure, a status other than 200 an [ApiError] with the status, and a 200
    answer gives the result parsed from [vendorDetails]. *)
Definition spec_query (mac : string) (api_key : option string) (w : World)
  : option ((spec_failure + LookupResult) * World) :=
  let sent := w ++ [request_for mac api_key] in
  match requests_get w (request_for mac api_key) with
  | inl err => Some (inl (TransportFailure err), sent)
  | inr response =>
      if bool_decide (status_code response = 200%Z) then
        match json_loads (text response) with
        | inr data =>
            match spec_vendor_fields data with
            | Some fields =>
                Some (inr {| result_mac := mac; vendor_fields := fields |}, sent)
            | None => None
            end
        | inl _ => None
        end
      else Some (inl (ApiError mac (status_code response)), sent)
  end.

(** Validate each piece and query it, one piece after the other,
    accumulating the results; the first failure ends the batch. *)
Fixpoint spec_validate_and_query (pieces : list string) (api_key : option string)
    (acc : list LookupResult) (w : World)
  : option ((spec_failure + list LookupResult) * World) :=
  match pieces with
  | [] => Some (inr acc, w)
  | mac :: rest =>
      if spec_valid_mac mac then
        match spec_query mac api_key w with
        | None => None
        | Some (inl failure, w') => Some (inl failure, w')
        | Some (inr result, w') =>
            spec_validate_and_query rest api_key (acc ++ [result]) w'
        end
      else Some (inl (ValidationError mac), w)
  end.

(** The steps in their order: split on commas, deduplicate through a set
    (visited in the order of the environment), trim each piece, then validate
    and query. *)
Definition lookupAll_steps (mac_list_string : string) (api_key : option string)
    (w : World) : option ((spec_failure + list LookupResult) * World) :=
  let pieces := spec_split mac_list_string in
  let distinct := set_iter pieces in
  let trimmed := spec_trim <$> distinct in
  spec_validate_and_query trimmed api_key [] w.

(** An API that answers every request as the specification expects: a 200
    answer carries a body whose vendor fields are defined. *)
Definition answers_as_specified : Prop :=
  ∀ w rq response,
    requests_get w rq = inr response →
    status_code response = 200%Z →
    ∃ data fields,
      json_loads (text response) = inr data
      ∧ spec_vendor_fields data = Some fields.

(** * Properties *)

(** ** The validators *)

Lemma forallb_pointwise {A} (f g : A → bool) (l : list A) :
  (∀ x, f x = g x) → forallb f l = forallb g l.
Proof. intros Hfg. induction l as [|x l IH]; simpl; [done|]. by rewrite Hfg, IH. Qed.

(** The pattern of [validate_hex_only] matches exactly the non-empty
    strings over its class: the [$] before a final newline does not help,
    because a full match has to consume the newline too. *)
Lemma match_here_class_dollar cls s :
  match_here [TClassPlus cls; TDollar] false s
  = match s with EmptyString => false | _ => true end
    && forallb (in_class cls) (chars s).
Proof.
  induction s as [|c s IH]; [reflexivity|].
  change (match_here [TClassPlus cls; TDollar] false (String c s))
    with (in_class cls c
          && (match_here [TClassPlus cls; TDollar] false s
              || match_here [TDollar] false s)).
  rewrite IH. unfold chars. cbn [String.list_ascii_of_string forallb andb].
  destruct (in_class cls c); [|reflexivity].
  destruct s as [|d s]; [reflexivity|].
  cbn [andb orb match_here at_dollar].
  destruct s; rewrite ?andb_false_r, ?orb_false_r; reflexivity.
Qed.

Lemma fullmatch_hex_only s :
  fullmatch hex_only_pattern s
  = match s with EmptyString => false | _ => true end
    && forallb (in_class hex_class) (chars s).
Proof. apply (match_here_class_dollar hex_class s). Qed.

Lemma in_class_hex c : in_class hex_class c = bool_decide (c ∈ spec_charset).
Proof.
  destruct c as [[] [] [] [] [] [] [] []]; vm_compute; reflexivity.
Qed.

Lemma validate_mac_length_ok mac :
  validate_mac_length mac = inr ()
  ↔ String.length mac = 12%nat ∨ String.length mac = 17%nat.
Proof.
  unfold validate_mac_length. case_bool_decide as H.
  - split; [intros _|reflexivity].
    apply elem_of_cons in H as [H|H]; [by left|].
    apply elem_of_cons in H as [H|H]; [by right|].
    by apply elem_of_nil in H.
  - split; [discriminate|]. intros [E|E]; destruct H; rewrite E.
    + apply elem_of_cons. by left.
    + apply elem_of_cons. right. apply elem_of_cons. by left.
Qed.

Lemma validate_mac_unfold mac :
  validate_mac mac =
    match validate_mac_length mac with
    | inl e => inl e
    | inr _ => match validate_hex_only mac with
               | inl e => inl e
               | inr _ => inr ()
               end
    end.
Proof. reflexivity. Qed.

Lemma validate_mac_spec mac :
  validate_mac mac = inr () ↔ spec_valid_mac mac = true.
Proof.
  rewrite validate_mac_unfold. unfold spec_valid_mac.
  rewrite andb_true_iff, bool_decide_eq_true, <- validate_mac_length_ok.
  destruct (validate_mac_length mac) as [e|[]] eqn:Hlen.
  - split; [discriminate|]. intros [? _]. discriminate.
  - unfold validate_hex_only. rewrite fullmatch_hex_only.
    rewrite (forallb_pointwise _ _ _ in_class_hex).
    destruct mac as [|c mac]; [vm_compute in Hlen; discriminate|]. cbn [andb].
    destruct (forallb _ _); split; try done. intros [_ ?]; done.
Qed.

Lemma validate_mac_raises_ValueError mac :
  validate_mac mac = inr () ∨ ∃ msg, validate_mac mac = inl (ValueError msg).
Proof.
  rewrite validate_mac_unfold. unfold validate_mac_length, validate_hex_only.
  case_bool_decide; [|right; eauto].
  destruct (fullmatch _ _); [left|right]; eauto.
Qed.

(** C1: [validate_mac] returns normally exactly on the strings of length 12
    or 17 all of whose characters are in [[0-9A-F:.]]; on every other string
    it raises [ValueError]. *)
Theorem validate_mac_iff_length_and_charset (mac : string) :
  (validate_mac mac = inr () ↔ spec_valid_mac mac = true)
  ∧ (spec_valid_mac mac = false ↔ ∃ msg, validate_mac mac = inl (ValueError msg)).
Proof.
  split; [apply validate_mac_spec|].
  pose proof (validate_mac_spec mac) as Hiff.
  destruct (validate_mac_raises_ValueError mac) as [Hok|[msg Hmsg]].
  - split.
    + intros Hf. apply Hiff in Hok. congruence.
    + intros [msg Hmsg]. congruence.
  - split; [eauto|]. intros _.
    destruct (spec_valid_mac mac) eqn:Hv; [|reflexivity].
    apply validate_mac_spec in Hv. congruence.
Qed.

Lemma forallb_charset_of_digits (l : list ascii) :
  forallb (λ c, bool_decide (c ∈ spec_hex_digits)) l = true →
  forallb (λ c, bool_decide (c ∈ spec_charset)) l = true.
Proof.
  rewrite !forallb_forall. intros H c Hc. specialize (H c Hc).
  apply bool_decide_eq_true in H. apply bool_decide_eq_true.
  unfold spec_charset. apply elem_of_app. by left.
Qed.

(** C10: [validate_mac] never looks at where the delimiters are.  A string of
    12 characters over [[0-9A-F:.]] that has a [:] or a [.] in it passes, and
    so does a string of 17 hexadecimal digits without any delimiter. *)
Theorem validate_mac_ignores_delimiter_placement (mac : string) :
  (String.length mac = 12%nat →
   forallb (λ c, bool_decide (c ∈ spec_charset)) (chars mac) = true →
   ":"%char ∈ chars mac ∨ "."%char ∈ chars mac →
   validate_mac mac = inr ())
  ∧ (String.length mac = 17%nat →
     forallb (λ c, bool_decide (c ∈ spec_hex_digits)) (chars mac) = true →
     validate_mac mac = inr ()).
Proof.
  split.
  - intros Hlen Hset _. apply validate_mac_spec. unfold spec_valid_mac.
    rewrite Hset, andb_true_r. apply bool_decide_eq_true. by left.
  - intros Hlen Hset. apply validate_mac_spec. unfold spec_valid_mac.
    rewrite (forallb_charset_of_digits _ Hset), andb_true_r.
    apply bool_decide_eq_true. by right.
Qed.

(** ** Splitting and set iteration *)

Lemma str_split_nonempty sep s : str_split sep s ≠ [].
Proof.
  destruct s as [|c s]; simpl; [done|].
  destruct (Ascii.eqb c sep); [done|]. by destruct (str_split sep s).
Qed.

Hypothesis set_iter_ok : set_iteration set_iter.

Lemma set_iter_nonempty l : l ≠ [] → set_iter l ≠ [].
Proof.
  destruct l as [|x l]; [done|]. intros _ Hnil.
  destruct (set_iter_ok (x :: l)) as [_ Hel].
  assert (x ∈ set_iter (x :: l)) as Hx by (apply Hel; left).
  rewrite Hnil in Hx. by apply elem_of_nil in Hx.
Qed.

(** A set all of whose elements are [e] is visited as [[e]]. *)
Lemma set_iter_single l e :
  l ≠ [] → (∀ p, p ∈ l → p = e) → set_iter l = [e].
Proof.
  intros Hne Hall. destruct (set_iter_ok l) as [Hnd Hel].
  pose proof (set_iter_nonempty l Hne) as Hne'.
  destruct (set_iter l) as [|a [|b k]]; [done| |].
  - f_equal. apply Hall, Hel. left.
  - assert (a = e) as -> by (apply Hall, Hel; left).
    assert (b = e) as -> by (apply Hall, Hel; right; left).
    apply NoDup_cons in Hnd as [Hnotin _]. destruct Hnotin. left.
Qed.

(** ** One request *)

Lemma make_request_transport mac api_key w err :
  requests_get w (request_for mac api_key) = inl err →
  make_request mac api_key w
  = (inl (SystemExit err), w ++ [request_for mac api_key]).
Proof.
  intros H. unfold make_request, bind, get.
  change {| url := _; params := _; headers := _ |} with (request_for mac api_key).
  by rewrite H.
Qed.

Lemma make_request_non200 mac api_key w response :
  requests_get w (request_for mac api_key) = inr response →
  status_code response ≠ 200%Z →
  make_request mac api_key w
  = (inl (ValueError (status_message mac (status_code response))),
     w ++ [request_for mac api_key]).
Proof.
  intros H Hs. unfold make_request, bind, get.
  change {| url := _; params := _; headers := _ |} with (request_for mac api_key).
  rewrite H. by rewrite bool_decide_eq_false_2.
Qed.

Lemma make_request_200 mac api_key w response :
  requests_get w (request_for mac api_key) = inr response →
  status_code response = 200%Z →
  make_request mac api_key w
  = (match json_loads (text response) with
     | inl (NotJSON msg) => inl (ValueError msg)
     | inl (TooDeep msg) => inl (RecursionError msg)
     | inr data =>
         match py_get data "vendorDetails" with
         | inl e => inl e
         | inr vendorDetails => MacAddressIO mac vendorDetails
         end
     end, w ++ [request_for mac api_key]).
Proof.
  intros H Hs. unfold make_request, bind, get, loads, lift, ret, raise.
  change {| url := _; params := _; headers := _ |} with (request_for mac api_key).
  rewrite H. rewrite bool_decide_eq_true_2 by done.
  destruct (json_loads (text response)) as [[msg|msg]|data]; [done|done|].
  destruct (py_get data "vendorDetails") as [e|vd]; [done|].
  by destruct (MacAddressIO mac vd).
Qed.

(** Whatever the answer, [make_request] sends exactly one request. *)
Lemma make_request_world mac api_key w :
  (make_request mac api_key w).2 = w ++ [request_for mac api_key].
Proof.
  destruct (requests_get w (request_for mac api_key)) as [err|response] eqn:H.
  - by rewrite (make_request_transport _ _ _ _ H).
  - destruct (decide (status_code response = 200%Z)) as [Hs|Hs].
    + by rewrite (make_request_200 _ _ _ _ H Hs).
    + by rewrite (make_request_non200 _ _ _ _ H Hs).
Qed.

(** ** The loop *)

Lemma for_mac_cons e rest api_key acc w :
  for_mac (e :: rest) api_key acc w
  = match validate_mac (strip e) with
    | inl x => (inl x, w)
    | inr _ =>
        match make_request (strip e) api_key w with
        | (inl x, w') => (inl x, w')
        | (inr r, w') => for_mac rest api_key (acc ++ [r]) w'
        end
    end.
Proof.
  cbn [for_mac]. unfold bind at 1. unfold lift, raise, ret.
  destruct (validate_mac (strip e)); reflexivity.
Qed.

Lemma for_mac_app pre rest api_key acc w :
  for_mac (pre ++ rest) api_key acc w
  = match for_mac pre api_key acc w with
    | (inl x, w') => (inl x, w')
    | (inr acc', w') => for_mac rest api_key acc' w'
    end.
Proof.
  revert acc w. induction pre as [|e pre IH]; intros acc w; [reflexivity|].
  rewrite <- app_comm_cons, !for_mac_cons.
  destruct (validate_mac (strip e)); [reflexivity|].
  destruct (make_request (strip e) api_key w) as [[x|r] w']; [reflexivity|].
  apply IH.
Qed.

(** The requests of a run of the loop are those of the entries it visited, a
    prefix of the iteration order, all of which passed validation; a loop
    that returns visited every entry and added one result for each. *)
Lemma for_mac_trace macs api_key acc w :
  ∃ visited,
    visited `prefix_of` macs
    ∧ (for_mac macs api_key acc w).2
      = w ++ ((λ e, request_for (strip e) api_key) <$> visited)
    ∧ (∀ e, e ∈ visited → validate_mac (strip e) = inr ())
    ∧ (∀ rs, (for_mac macs api_key acc w).1 = inr rs →
         visited = macs ∧ length rs = (length acc + length macs)%nat).
Proof.
  revert acc w. induction macs as [|e macs IH]; intros acc w.
  - exists []. cbn. rewrite app_nil_r. split; [done|]. split; [done|]. split.
    + intros e He. by apply elem_of_nil in He.
    + intros rs [= <-]. split; [done|lia].
  - rewrite for_mac_cons.
    destruct (validate_mac (strip e)) as [x|[]] eqn:Hv.
    { exists []. cbn. rewrite app_nil_r.
      split; [apply prefix_nil|]. split; [done|]. split; [|done].
      intros e' He'. by apply elem_of_nil in He'. }
    pose proof (make_request_world (strip e) api_key w) as Hw.
    destruct (make_request (strip e) api_key w) as [[x|r] w'] eqn:Hrq;
      cbn in Hw; subst w'.
    { exists [e]. cbn.
      split; [by apply prefix_cons, prefix_nil|]. split; [done|]. split; [|done].
      intros e' He'. apply list_elem_of_singleton in He'. by subst. }
    destruct (IH (acc ++ [r]) (w ++ [request_for (strip e) api_key]))
      as (visited & Hpre & Hworld & Hvalid & Hret).
    exists (e :: visited). split; [by apply prefix_cons|]. split; [|split].
    + rewrite Hworld. cbn. by rewrite <- app_assoc.
    + intros e' He'. apply elem_of_cons in He' as [->|He']; [done|by apply Hvalid].
    + intros rs Hrs. destruct (Hret rs Hrs) as [-> Hlen]. split; [done|].
      rewrite length_app in Hlen. cbn in *. lia.
Qed.

Lemma get_mac_details_no_key s api_key w :
  validate_api_key_exists api_key ≠ inr () →
  get_mac_details s api_key w
  = (inl (ValueError "API key was was not provided."), w).
Proof.
  intros H. unfold get_mac_details, bind, lift.
  destruct api_key as [[|c k]|]; cbn in *; done.
Qed.

Lemma get_mac_details_key s api_key w :
  validate_api_key_exists api_key = inr () →
  get_mac_details s api_key w
  = for_mac (set_iter (str_split "," s)) api_key [] w.
Proof.
  intros H. unfold get_mac_details, bind. by rewrite H.
Qed.

(** With a key, the batch whose iteration order is [pre ++ rest] and whose
    entries [pre] were all looked up goes on with [rest]. *)
Lemma get_mac_details_reach s api_key w pre rest rs w1 :
  validate_api_key_exists api_key = inr () →
  set_iter (str_split "," s) = pre ++ rest →
  for_mac pre api_key [] w = (inr rs, w1) →
  get_mac_details s api_key w = for_mac rest api_key rs w1.
Proof.
  intros Hk Hit Hpre. rewrite (get_mac_details_key _ _ _ Hk), Hit, for_mac_app.
  by rewrite Hpre.
Qed.

(** ** The batch *)

(** C4: without an API key ([None] or the empty string) [get_mac_details]
    raises the [ValueError] of the key check whatever the MAC list is, and
    the world is unchanged: no request was sent and no MAC was validated.
    On the empty MAC list it raises [ValueError] with any key, again without
    a request. *)
Theorem no_key_or_empty_list_raises_before_any_request
    (mac_addresses : string) (api_key : option string) (w : World) :
  (api_key = None ∨ api_key = Some EmptyString →
   get_mac_details mac_addresses api_key w
   = (inl (ValueError "API key was was not provided."), w))
  ∧ (∃ msg, get_mac_details EmptyString api_key w = (inl (ValueError msg), w)).
Proof.
  split.
  - intros [-> | ->]; by apply get_mac_details_no_key.
  - destruct (validate_api_key_exists api_key) as [x|[]] eqn:Hk.
    + eexists. apply get_mac_details_no_key. by rewrite Hk.
    + rewrite (get_mac_details_key _ _ _ Hk).
      rewrite (set_iter_single _ EmptyString).
      * eexists. reflexivity.
      * apply str_split_nonempty.
      * intros p Hp. cbn in Hp. by apply list_elem_of_singleton in Hp.
Qed.

(** C3: when some entry of the list fails validation, [get_mac_details]
    returns no list at all but raises, whatever the iteration order of the
    set; every request it sent before was for an entry that passed
    validation, so none was sent for a malformed entry; and when the entries
    visited before the first malformed one were all looked up, the exception
    is the validation error of that entry and nothing more was sent. *)
Theorem invalid_entry_aborts_batch
    (mac_addresses : string) (api_key : option string) (w : World) :
  (∃ e, e ∈ str_split "," mac_addresses ∧ validate_mac (strip e) ≠ inr ()) →
  ∃ exc sent,
    get_mac_details mac_addresses api_key w = (inl exc, w ++ sent)
    ∧ (∀ rq, rq ∈ sent →
         ∃ m, rq = request_for m api_key ∧ validate_mac m = inr ())
    ∧ (∀ pre bad post rs w1,
         validate_api_key_exists api_key = inr () →
         set_iter (str_split "," mac_addresses) = pre ++ bad :: post →
         for_mac pre api_key [] w = (inr rs, w1) →
         validate_mac (strip bad) ≠ inr () →
         validate_mac (strip bad) = inl exc ∧ w ++ sent = w1).
Proof.
  intros (e & He & Hbad).
  destruct (validate_api_key_exists api_key) as [x|[]] eqn:Hk.
  { exists (ValueError "API key was was not provided."), [].
    rewrite app_nil_r. split; [|split].
    - apply get_mac_details_no_key. by rewrite Hk.
    - intros rq Hrq. by apply elem_of_nil in Hrq.
    - intros ? ? ? ? ? [=]. }
  pose proof (get_mac_details_key mac_addresses _ w Hk) as Hrun.
  destruct (for_mac_trace (set_iter (str_split "," mac_addresses)) api_key [] w)
    as (visited & Hpre & Hworld & Hvalid & Hret).
  rewrite <- Hrun in Hworld, Hret.
  destruct (get_mac_details mac_addresses api_key w) as [[exc|rs] w'] eqn:Hres.
  - cbn in Hworld. subst w'.
    exists exc, ((λ e, request_for (strip e) api_key) <$> visited).
    split; [done|]. split.
    + intros rq Hrq. apply list_elem_of_fmap in Hrq as (e' & -> & He').
      exists (strip e'). split; [done|by apply Hvalid].
    + intros pre bad post rs w1 _ Hit Hloop Hb.
      rewrite (get_mac_details_reach _ _ _ _ _ _ _ Hk Hit Hloop) in Hres.
      rewrite for_mac_cons in Hres.
      destruct (validate_mac (strip bad)) as [x|[]]; [|done].
      by injection Hres as -> ->.
  - destruct (Hret rs eq_refl) as [-> _].
    destruct Hbad. apply Hvalid. by apply (set_iter_ok (str_split "," mac_addresses)).
Qed.

Lemma NoDup_all_same {A} (l : list A) (a : A) :
  NoDup l → (∀ x, x ∈ l → x = a) → (length l ≤ 1)%nat.
Proof.
  intros Hnd Hall. destruct l as [|x [|y l]]; cbn; [lia|lia|].
  assert (x = a) as -> by (apply Hall; left).
  assert (y = a) as -> by (apply Hall; right; left).
  apply NoDup_cons in Hnd as [Hnotin _]. destruct Hnotin. left.
Qed.

(** C5: the requests of a batch are those of a duplicate-free list of
    entries of the input, one request per entry of that list.  An entry
    written several times in the input is therefore visited, and queried, at
    most once: when no other entry trims to the same MAC, at most one of the
    requests is for it, and a list that repeats one entry sends at most one
    request in all. *)
Theorem repeated_entry_queried_at_most_once
    (mac_addresses : string) (api_key : option string) (w : World) :
  ∃ visited,
    (get_mac_details mac_addresses api_key w).2
    = w ++ ((λ e, request_for (strip e) api_key) <$> visited)
    ∧ NoDup visited
    ∧ (∀ e, e ∈ visited → e ∈ str_split "," mac_addresses)
    ∧ (∀ e, (∀ p, p ∈ str_split "," mac_addresses → strip p = strip e → p = e) →
         (length (filter (λ p, strip p = strip e) visited) ≤ 1)%nat)
    ∧ (∀ e, (∀ p, p ∈ str_split "," mac_addresses → p = e) →
         (length visited ≤ 1)%nat).
Proof.
  assert (∃ visited,
    (get_mac_details mac_addresses api_key w).2
    = w ++ ((λ e, request_for (strip e) api_key) <$> visited)
    ∧ NoDup visited
    ∧ (∀ e, e ∈ visited → e ∈ str_split "," mac_addresses))
    as (visited & Hworld & Hnd & Hsub).
  { destruct (validate_api_key_exists api_key) as [x|[]] eqn:Hk.
    { exists []. rewrite get_mac_details_no_key by (by rewrite Hk).
      cbn. rewrite app_nil_r. split; [done|]. split; [constructor|].
      intros e He. by apply elem_of_nil in He. }
    rewrite (get_mac_details_key _ _ _ Hk).
    destruct (for_mac_trace (set_iter (str_split "," mac_addresses)) api_key [] w)
      as (visited & [k Hpre] & Hworld & _ & _).
    destruct (set_iter_ok (str_split "," mac_addresses)) as [Hnd Hel].
    exists visited. split; [done|]. split.
    - rewrite Hpre in Hnd. by apply NoDup_app in Hnd as [? _].
    - intros e He. apply Hel. rewrite Hpre. apply elem_of_app. by left. }
  exists visited. split; [done|]. split; [done|]. split; [done|]. split.
  - intros e Hsame. apply (NoDup_all_same _ e); [by apply NoDup_filter|].
    intros p Hp. apply list_elem_of_filter in Hp as [Hstrip Hp].
    apply Hsame; [by apply Hsub|done].
  - intros e Hall. apply (NoDup_all_same _ e Hnd).
    intros p Hp. by apply Hall, Hsub.
Qed.

(** ** The constructed object *)

Lemma setattr_plain self name v self' :
  name ≠ "__dict__" →
  setattr self name v = inr self' →
  self' = <[name := v]> self.
Proof.
  intros Hne. unfold setattr. rewrite bool_decide_eq_false_2 by done.
  repeat case_bool_decide; congruence.
Qed.

Lemma setattr_items_dom items self self' :
  (∀ k v, (k, v) ∈ items → lower k ≠ "__dict__") →
  setattr_items self items = inr self' →
  dom self' = dom self ∪ list_to_set (lower <$> items.*1).
Proof.
  revert self. induction items as [|[k v] items IH]; intros self Hkeys.
  - intros [= <-]. cbn. by rewrite (right_id_L ∅ (∪)).
  - cbn [setattr_items]. destruct (setattr self (lower k) v) as [x|self1] eqn:Hset; [done|].
    intros Hrest. apply setattr_plain in Hset; [|apply (Hkeys k v); left].
    rewrite (IH self1); [|intros k' v' Hin; apply (Hkeys k' v'); by right|done].
    subst self1. rewrite dom_insert_L. cbn.
    by rewrite (comm_L (∪) {[lower k]} (dom self)), (assoc_L (∪)).
Qed.

Lemma MacAddressIO_dict mac data self :
  MacAddressIO mac data = inr self → ∃ items, data = PDict items.
Proof.
  unfold MacAddressIO. destruct data; cbn; try done. eauto.
Qed.

Lemma MacAddressIO_acme mac :
  MacAddressIO mac (PDict [("companyName", PStr "Acme")])
  = inr (<["companyname" := PStr "Acme"]> {["mac" := PStr mac]}).
Proof. reflexivity. Qed.

(** C7, amended: a batch whose entries are all the entry [e], answered with
    status 200 and the body [{"vendorDetails": {"companyName": "Acme"}}],
    returns exactly one object, whose [mac] is the queried MAC and whose
    [companyname] is ["Acme"]; and every object constructed from a
    [vendorDetails] none of whose keys lower-cases to [__dict__] has the
    attribute [mac], its attributes being [mac] and the lower-cased keys. *)
Theorem acme_result_and_constructed_fields :
  (∀ mac_addresses api_key w e response,
     validate_api_key_exists api_key = inr () →
     (∀ p, p ∈ str_split "," mac_addresses → p = e) →
     validate_mac (strip e) = inr () →
     requests_get w (request_for (strip e) api_key) = inr response →
     status_code response = 200%Z →
     json_loads (text response) = inr acme_data →
     ∃ result,
       get_mac_details mac_addresses api_key w
       = (inr [result], w ++ [request_for (strip e) api_key])
       ∧ getattr result "mac" = inr (PStr (strip e))
       ∧ getattr result "companyname" = inr (PStr "Acme"))
  ∧ (∀ mac data self,
       MacAddressIO mac data = inr self →
       (∀ items k v, data = PDict items → (k, v) ∈ items → lower k ≠ "__dict__") →
       ∃ items,
         data = PDict items
         ∧ is_Some (self !! "mac")
         ∧ dom self = {["mac"]} ∪ list_to_set (lower <$> items.*1)).
Proof.
  split.
  - intros s api_key w e response Hk Hall Hv Hget H200 Hbody.
    exists (<["companyname" := PStr "Acme"]> {["mac" := PStr (strip e)]}).
    split; [|split].
    + rewrite (get_mac_details_key _ _ _ Hk).
      rewrite (set_iter_single _ e (str_split_nonempty _ _) Hall).
      rewrite for_mac_cons, Hv, (make_request_200 _ _ _ _ Hget H200), Hbody.
      reflexivity.
    + unfold getattr. rewrite lookup_insert_ne by done.
      by rewrite lookup_singleton_eq.
    + unfold getattr. by rewrite lookup_insert_eq.
  - intros mac data self Hinit Hkeys.
    destruct (MacAddressIO_dict _ _ _ Hinit) as [items ->].
    exists items. split; [done|].
    unfold MacAddressIO in Hinit. cbn [py_items] in Hinit.
    apply setattr_items_dom in Hinit;
      [|intros k v; apply (Hkeys items k v eq_refl)].
    rewrite dom_singleton_L in Hinit. split; [|done].
    apply elem_of_dom. rewrite Hinit. apply elem_of_union. left.
    by apply elem_of_singleton.
Qed.

(** ** The driver *)

Lemma add_rows_length results rows :
  add_rows results = inr rows → length rows = length results.
Proof.
  revert rows. induction results as [|r results IH]; intros rows.
  - by intros [= <-].
  - cbn [add_rows]. destruct (getattr r "mac"); [done|].
    destruct (getattr r "companyname"); [done|].
    destruct (add_rows results) as [x|rows']; [done|].
    intros [= <-]. cbn. f_equal. by apply IH.
Qed.

Lemma get_mac_details_length s api_key w results w' :
  get_mac_details s api_key w = (inr results, w') →
  length results = length (set_iter (str_split "," s)).
Proof.
  intros Hres.
  destruct (validate_api_key_exists api_key) as [x|[]] eqn:Hk.
  { rewrite get_mac_details_no_key in Hres by (by rewrite Hk). done. }
  rewrite (get_mac_details_key _ _ _ Hk) in Hres.
  destruct (for_mac_trace (set_iter (str_split "," s)) api_key [] w)
    as (visited & _ & _ & _ & Hret).
  rewrite Hres in Hret. by destruct (Hret results eq_refl) as [_ ->].
Qed.

(** C9: a 200 answer whose body is an object without the key
    [vendorDetails] makes [make_request] hand [None] to the constructor,
    whose [data.items()] raises [AttributeError]; no handler of the script
    catches it, nothing is printed.  The constructor returns only for a
    [dict]. *)
Theorem missing_vendorDetails_raises_AttributeError
    (mac_addresses : string) (api_key : option string) (w w1 : World)
    (pre post : list string) (e : string) (rs : list (gmap string pyval))
    (response : Response) (body : list (string * pyval)) :
  validate_api_key_exists api_key = inr () →
  set_iter (str_split "," mac_addresses) = pre ++ e :: post →
  for_mac pre api_key [] w = (inr rs, w1) →
  validate_mac (strip e) = inr () →
  requests_get w1 (request_for (strip e) api_key) = inr response →
  status_code response = 200%Z →
  json_loads (text response) = inr (PDict body) →
  assoc "vendorDetails" body = None →
  let err := AttributeError "'NoneType' object has no attribute 'items'" in
  py_get (PDict body) "vendorDetails" = inr PNone
  ∧ MacAddressIO (strip e) PNone = inl err
  ∧ make_request (strip e) api_key w1
    = (inl err, w1 ++ [request_for (strip e) api_key])
  ∧ main mac_addresses api_key w
    = ({| printed := []; uncaught := Some err |},
       w1 ++ [request_for (strip e) api_key])
  ∧ (∀ mac data self,
       MacAddressIO mac data = inr self → ∃ fields, data = PDict fields).
Proof.
  intros Hk Hit Hpre Hv Hget H200 Hbody Hmiss err.
  assert (make_request (strip e) api_key w1
          = (inl err, w1 ++ [request_for (strip e) api_key])) as Hrq.
  { rewrite (make_request_200 _ _ _ _ Hget H200), Hbody. cbn. by rewrite Hmiss. }
  split; [cbn; by rewrite Hmiss|]. split; [done|]. split; [done|].
  split; [|apply MacAddressIO_dict].
  unfold main. rewrite (get_mac_details_reach _ _ _ _ _ _ _ Hk Hit Hpre).
  by rewrite for_mac_cons, Hv, Hrq.
Qed.

(** A transport failure goes through [SystemExit]: the driver prints the
    banner and the message. *)
Lemma transport_failure_takes_fatal_path
    mac_addresses api_key w w1 pre post e rs err :
  validate_api_key_exists api_key = inr () →
  set_iter (str_split "," mac_addresses) = pre ++ e :: post →
  for_mac pre api_key [] w = (inr rs, w1) →
  validate_mac (strip e) = inr () →
  requests_get w1 (request_for (strip e) api_key) = inl err →
  main mac_addresses api_key w
  = ({| printed := [PrintStr banner; PrintStr err]; uncaught := None |},
     w1 ++ [request_for (strip e) api_key]).
Proof.
  intros Hk Hit Hpre Hv Hget.
  unfold main. rewrite (get_mac_details_reach _ _ _ _ _ _ _ Hk Hit Hpre).
  by rewrite for_mac_cons, Hv, (make_request_transport _ _ _ _ Hget).
Qed.

(** C2, amended: a status other than 200 makes [make_request] raise a
    [ValueError] that carries the status code; the handler of transport
    exceptions does not turn it into [SystemExit], and the driver reports it
    through its [ValueError] handler, the one of the validation errors: it
    prints the message alone, without the banner of the [SystemExit] handler,
    and no table. *)
Theorem non200_is_reported_as_ValueError
    (mac_addresses : string) (api_key : option string) (w w1 : World)
    (pre post : list string) (e : string) (rs : list (gmap string pyval))
    (response : Response) :
  validate_api_key_exists api_key = inr () →
  set_iter (str_split "," mac_addresses) = pre ++ e :: post →
  for_mac pre api_key [] w = (inr rs, w1) →
  validate_mac (strip e) = inr () →
  requests_get w1 (request_for (strip e) api_key) = inr response →
  status_code response ≠ 200%Z →
  let msg := status_message (strip e) (status_code response) in
  make_request (strip e) api_key w1
  = (inl (ValueError msg), w1 ++ [request_for (strip e) api_key])
  ∧ main mac_addresses api_key w
    = ({| printed := [PrintStr msg]; uncaught := None |},
       w1 ++ [request_for (strip e) api_key])
  ∧ ¬ fatal_path (main mac_addresses api_key w).1.
Proof.
  intros Hk Hit Hpre Hv Hget Hs msg.
  pose proof (make_request_non200 _ _ _ _ Hget Hs) as Hrq.
  assert (main mac_addresses api_key w
          = ({| printed := [PrintStr msg]; uncaught := None |},
             w1 ++ [request_for (strip e) api_key])) as Hmain.
  { unfold main. rewrite (get_mac_details_reach _ _ _ _ _ _ _ Hk Hit Hpre).
    by rewrite for_mac_cons, Hv, Hrq. }
  split; [done|]. split; [done|].
  rewrite Hmain. intros [m Hm]. discriminate Hm.
Qed.

(** * Further properties *)

(** ** The string methods *)

Lemma chars_app a b : chars (a +:+ b) = chars a ++ chars b.
Proof. unfold chars. induction a as [|c a IH]; simpl; [done|]. by rewrite IH. Qed.

Lemma str_join_cons_char sep c p ps :
  str_join sep (String c p :: ps) = String c (str_join sep (p :: ps)).
Proof. by destruct ps. Qed.

(** X1: [split] loses nothing: joining the pieces with the separator gives
    the string back, and no piece contains the separator. *)
Theorem str_split_join_roundtrip (sep : ascii) (s : string) :
  str_join sep (str_split sep s) = s
  ∧ Forall (λ p, sep ∉ chars p) (str_split sep s).
Proof.
  induction s as [|c s [IHj IHf]].
  - split; [done|]. constructor; [|constructor]. cbn. apply not_elem_of_nil.
  - cbn [str_split]. destruct (Ascii.eqb c sep) eqn:Hc.
    + apply Ascii.eqb_eq in Hc as ->. split.
      * pose proof (str_split_nonempty sep s) as Hne.
        destruct (str_split sep s) as [|p ps]; [done|].
        change (str_join sep (EmptyString :: p :: ps))
          with (String sep (str_join sep (p :: ps))).
        by rewrite IHj.
      * constructor; [cbn; apply not_elem_of_nil|done].
    + apply Ascii.eqb_neq in Hc.
      pose proof (str_split_nonempty sep s) as Hne.
      destruct (str_split sep s) as [|p ps]; [done|]. split.
      * by rewrite str_join_cons_char, IHj.
      * apply Forall_cons in IHf as [Hp Hps]. constructor; [|done].
        cbn. intros Hin. apply elem_of_cons in Hin as [->|Hin]; [done|].
        by apply Hp.
Qed.

Lemma str_split_no_sep sep s : sep ∉ chars s → str_split sep s = [s].
Proof.
  induction s as [|c s IH]; [done|]. cbn. intros Hnot.
  apply not_elem_of_cons in Hnot as [Hne Hnot].
  destruct (Ascii.eqb c sep) eqn:Hc; [apply Ascii.eqb_eq in Hc; by subst|].
  by rewrite (IH Hnot).
Qed.

Lemma lstrip_decompose s :
  ∃ a, s = a +:+ lstrip s ∧ forallb isspace (chars a) = true.
Proof.
  induction s as [|c s (a & Hs & Ha)]; [by exists EmptyString|].
  cbn [lstrip]. destruct (isspace c) eqn:Hc.
  - exists (String c a). split; [exact (f_equal (String c) Hs)|].
    unfold chars in *. simpl. by rewrite Hc, Ha.
  - by exists EmptyString.
Qed.

Lemma rstrip_decompose s :
  ∃ b, s = rstrip s +:+ b ∧ forallb isspace (chars b) = true.
Proof.
  induction s as [|c s (b & Hs & Hb)]; [by exists EmptyString|].
  cbn [rstrip]. destruct (rstrip s) as [|d r] eqn:Hr.
  - simpl in Hs. subst s. destruct (isspace c) eqn:Hc.
    + exists (String c b). split; [done|].
      unfold chars in *. simpl. by rewrite Hc, Hb.
    + by exists b.
  - exists b. split; [|done]. exact (f_equal (String c) Hs).
Qed.

Lemma lstrip_clean s :
  match s with String c _ => isspace c = false | EmptyString => True end →
  lstrip s = s.
Proof. destruct s as [|c s]; [done|]. cbn. by intros ->. Qed.

Lemma lstrip_head s :
  match lstrip s with String c _ => isspace c = false | EmptyString => True end.
Proof.
  induction s as [|c s IH]; [done|]. cbn. by destruct (isspace c) eqn:Hc.
Qed.

Lemma rstrip_head s :
  match s with String c _ => isspace c = false | EmptyString => True end →
  match rstrip s with String c _ => isspace c = false | EmptyString => True end.
Proof.
  destruct s as [|c s]; [done|]. cbn. intros Hc.
  destruct (rstrip s); [by rewrite Hc|done].
Qed.

Lemma rstrip_idemp s : rstrip (rstrip s) = rstrip s.
Proof.
  induction s as [|c s IH]; [done|]. cbn [rstrip].
  destruct (rstrip s) as [|d r] eqn:Hr.
  - destruct (isspace c) eqn:Hc; [done|]. cbn. by rewrite Hc.
  - cbn [rstrip]. cbn [rstrip] in IH. by rewrite IH.
Qed.

(** X2: [strip] removes blanks at the two ends and nothing else: the string
    is a run of blanks, the stripped string, a run of blanks; the stripped
    string has no blank left to strip at either end, so stripping twice is
    stripping once. *)
Theorem strip_removes_only_surrounding_blanks (s : string) :
  (∃ a b, s = a +:+ strip s +:+ b
          ∧ forallb isspace (chars a) = true
          ∧ forallb isspace (chars b) = true)
  ∧ lstrip (strip s) = strip s
  ∧ rstrip (strip s) = strip s
  ∧ strip (strip s) = strip s.
Proof.
  assert (lstrip (strip s) = strip s) as Hl.
  { apply lstrip_clean, rstrip_head, lstrip_head. }
  assert (rstrip (strip s) = strip s) as Hr by apply rstrip_idemp.
  split; [|split; [done|split; [done|]]].
  - destruct (lstrip_decompose s) as (a & Hs & Ha).
    destruct (rstrip_decompose (lstrip s)) as (b & Ht & Hb).
    exists a, b. split; [|done]. unfold strip. by rewrite <- Ht.
  - unfold strip at 1. by rewrite Hl, Hr.
Qed.

Lemma strip_idemp s : strip (strip s) = strip s.
Proof.
  unfold strip at 1.
  rewrite (lstrip_clean (strip s)) by apply rstrip_head, lstrip_head.
  apply rstrip_idemp.
Qed.

Lemma strip_chars s c : c ∈ chars (strip s) → c ∈ chars s.
Proof.
  destruct (lstrip_decompose s) as (a & Hs & _).
  destruct (rstrip_decompose (lstrip s)) as (b & Ht & _).
  intros Hc. rewrite Hs, Ht, !chars_app. fold (strip s).
  apply elem_of_app. right. apply elem_of_app. by left.
Qed.

Lemma lower_char_idemp c : lower_char (lower_char c) = lower_char c.
Proof. destruct c as [[] [] [] [] [] [] [] []]; vm_compute; reflexivity. Qed.

Lemma lower_idemp s : lower (lower s) = lower s.
Proof. induction s as [|c s IH]; cbn; [done|]. by rewrite lower_char_idemp, IH. Qed.

(** ** More on the validators *)

(** X3: the result of [validate_mac] in full.  A wrong length is reported
    first, with the length message, whatever the characters are; with a
    right length a character outside the class gives the hex-only message. *)
Theorem validate_mac_reports_length_first (mac : string) :
  validate_mac mac
  = if bool_decide (String.length mac = 12%nat ∨ String.length mac = 17%nat) then
      if forallb (λ c, bool_decide (c ∈ spec_charset)) (chars mac) then inr ()
      else inl (ValueError ("MAC Address (" +:+ mac
                            +:+ ") did not pass hex-only validation."))
    else inl (ValueError ("MAC address (" +:+ mac
                          +:+ ") did not pass length validation.")).
Proof.
  rewrite validate_mac_unfold.
  pose proof (validate_mac_length_ok mac) as Hlen.
  unfold validate_mac_length in *. case_bool_decide as Hin.
  - rewrite bool_decide_eq_true_2 by (by apply Hlen).
    unfold validate_hex_only. rewrite fullmatch_hex_only.
    rewrite (forallb_pointwise _ _ _ in_class_hex).
    destruct mac as [|c mac]; [|by destruct (forallb _ _)].
    apply elem_of_cons in Hin as [Hin|Hin]; [done|].
    apply elem_of_cons in Hin as [Hin|Hin]; [done|]. by apply elem_of_nil in Hin.
  - rewrite bool_decide_eq_false_2; [done|].
    intros Hor. apply Hlen in Hor. done.
Qed.

(** X4: [validate_hex_only] on its own accepts exactly the non-empty strings
    over [[0-9A-F:.]]; the empty string is refused, and so is any string with
    a newline at its end, which the [$] of the pattern alone would allow. *)
Theorem validate_hex_only_iff (mac : string) :
  (validate_hex_only mac = inr ()
   ↔ mac ≠ EmptyString
     ∧ forallb (λ c, bool_decide (c ∈ spec_charset)) (chars mac) = true)
  ∧ (∃ msg, validate_hex_only (mac +:+ String newline EmptyString)
            = inl (ValueError msg)).
Proof.
  assert (∀ s, validate_hex_only s = inr ()
               ↔ s ≠ EmptyString
                 ∧ forallb (λ c, bool_decide (c ∈ spec_charset)) (chars s) = true)
    as Hiff.
  { intros s. unfold validate_hex_only. rewrite fullmatch_hex_only.
    rewrite (forallb_pointwise _ _ _ in_class_hex).
    destruct s as [|c s]; cbn [andb].
    - split; [done|]. by intros [? _].
    - destruct (forallb _ _); split; try done. by intros [_ ?]. }
  split; [apply Hiff|].
  destruct (validate_hex_only (mac +:+ String newline EmptyString))
    as [[msg| | | |]|[]] eqn:Hres; try (unfold validate_hex_only in Hres;
      destruct (fullmatch _ _); discriminate); [by eexists|].
  apply Hiff in Hres as [_ Hall]. rewrite chars_app, forallb_app in Hall.
  apply andb_true_iff in Hall as [_ Hnl]. vm_compute in Hnl. discriminate.
Qed.

(** X5: validation is case-sensitive: a string with a lower-case letter in
    it is refused, whatever its length; callers of the class have to
    upper-case the input themselves, as the argument parser of the script
    does. *)
Theorem validate_mac_refuses_lower_case (mac : string) (c : ascii) :
  c ∈ chars mac →
  (ord "a" ≤ ord c ∧ ord c ≤ ord "z") →
  ∃ msg, validate_mac mac = inl (ValueError msg).
Proof.
  intros Hin Hrange.
  destruct (validate_mac_raises_ValueError mac) as [Hok|Hbad]; [|done].
  apply validate_mac_spec in Hok. unfold spec_valid_mac in Hok.
  apply andb_true_iff in Hok as [_ Hall].
  rewrite forallb_forall in Hall. apply list_elem_of_In in Hin.
  specialize (Hall c Hin). apply bool_decide_eq_true in Hall.
  exfalso. revert Hrange. apply list_elem_of_In in Hall.
  vm_compute in Hall.
  repeat (destruct Hall as [<-|Hall]; [vm_compute; intros [H1 H2]; by (apply H1 || apply H2)|]).
  done.
Qed.

(** ** More on the constructed object *)

Lemma setattr_ordinary self name v :
  special_name name = false → setattr self name v = inr (<[name := v]> self).
Proof.
  unfold special_name. intros Hsp. apply bool_decide_eq_false in Hsp.
  unfold setattr. repeat case_bool_decide; try done; subst name; destruct Hsp.
  - left.
  - right; left.
  - right; right; left.
Qed.

Lemma setattr_items_ordinary items self :
  (∀ k v, (k, v) ∈ items → special_name (lower k) = false) →
  setattr_items self items
  = inr (foldl (λ m kv, <[lower kv.1 := kv.2]> m) self items).
Proof.
  revert self. induction items as [|[k v] items IH]; intros self Hord; [done|].
  cbn [setattr_items foldl]. rewrite setattr_ordinary by (apply (Hord k v); left).
  apply IH. intros k' v' Hin. apply (Hord k' v'). by right.
Qed.

Lemma foldl_insert_absent items (self : gmap string pyval) name :
  (∀ k v, (k, v) ∈ items → lower k ≠ name) →
  foldl (λ m kv, <[lower kv.1 := kv.2]> m) self items !! name = self !! name.
Proof.
  revert self. induction items as [|[k v] items IH]; intros self Habs; [done|].
  cbn [foldl]. rewrite IH by (intros k' v' Hin; apply (Habs k' v'); by right).
  apply lookup_insert_ne. apply (Habs k v). left.
Qed.

(** X6: on a [vendorDetails] without the three special names the
    constructor returns; a field holds the value of the last key that
    lower-cases to its name, so of two keys that collide after lower-casing
    the later wins, and [mac] is the queried MAC unless a key lower-cases to
    [mac]. *)
Theorem constructor_last_key_wins
    (mac : string) (items : list (string * pyval)) :
  (∀ k v, (k, v) ∈ items → special_name (lower k) = false) →
  ∃ self,
    MacAddressIO mac (PDict items) = inr self
    ∧ (∀ pre k v post,
         items = pre ++ (k, v) :: post →
         (∀ k' v', (k', v') ∈ post → lower k' ≠ lower k) →
         self !! lower k = Some v)
    ∧ ((∀ k v, (k, v) ∈ items → lower k ≠ "mac") →
       self !! "mac" = Some (PStr mac))
    ∧ (∀ name, (∀ k v, (k, v) ∈ items → lower k ≠ name) → name ≠ "mac" →
         self !! name = None).
Proof.
  intros Hord. eexists. split; [|split; [|split]].
  - unfold MacAddressIO. cbn [py_items]. by apply setattr_items_ordinary.
  - intros pre k v post -> Hlast.
    rewrite foldl_app. cbn [foldl]. rewrite foldl_insert_absent by done.
    apply lookup_insert_eq.
  - intros Hnomac. rewrite foldl_insert_absent by done. apply lookup_singleton_eq.
  - intros name Habs Hne. rewrite foldl_insert_absent by done.
    by apply lookup_singleton_ne.
Qed.

Lemma setattr_items_read_only items self k v :
  (k, v) ∈ items →
  lower k = "__class__" ∨ lower k = "__weakref__" →
  ∃ e, setattr_items self items = inl e.
Proof.
  revert self. induction items as [|[k' v'] items IH]; intros self Hin Hk.
  - by apply elem_of_nil in Hin.
  - cbn [setattr_items].
    destruct (setattr self (lower k') v') as [e|self'] eqn:Hset; [by eexists|].
    apply elem_of_cons in Hin as [[= <- <-]|Hin]; [|by apply IH].
    unfold setattr in Hset. destruct Hk as [Hk|Hk]; rewrite Hk in Hset;
      cbn in Hset; done.
Qed.

(** X7: a [vendorDetails] with a key that lower-cases to [__class__] or
    [__weakref__] cannot be turned into an object: the constructor raises. *)
Theorem constructor_raises_on_read_only_names
    (mac : string) (items : list (string * pyval)) (k : string) (v : pyval) :
  (k, v) ∈ items →
  lower k = "__class__" ∨ lower k = "__weakref__" →
  ∃ e, MacAddressIO mac (PDict items) = inl e.
Proof.
  intros Hin Hk. unfold MacAddressIO. cbn [py_items].
  by apply (setattr_items_read_only items _ k v).
Qed.

(** X8: the attribute names of a constructed object are lower-case, when no
    key of [vendorDetails] lower-cases to [__dict__]. *)
Theorem constructed_names_are_lower_case
    (mac : string) (items : list (string * pyval)) (self : gmap string pyval)
    (name : string) :
  MacAddressIO mac (PDict items) = inr self →
  (∀ k v, (k, v) ∈ items → lower k ≠ "__dict__") →
  name ∈ dom self →
  lower name = name.
Proof.
  intros Hinit Hkeys Hname. unfold MacAddressIO in Hinit. cbn [py_items] in Hinit.
  apply setattr_items_dom in Hinit; [|done].
  rewrite Hinit, dom_singleton_L in Hname.
  apply elem_of_union in Hname as [Hname|Hname].
  - apply elem_of_singleton in Hname. by subst.
  - apply elem_of_list_to_set, list_elem_of_fmap in Hname as (k & -> & _).
    apply lower_idemp.
Qed.

(** ** More on one request *)

(** X9: [make_request] sends one request whatever the answer is: to the
    fixed URL, with the key in the header [x-Authentication-Token] and the
    parameters [output=json] and [search=<mac>]. *)
Theorem make_request_sends_one_request
    (mac : string) (api_key : option string) (w : World) :
  ∃ rq,
    (make_request mac api_key w).2 = w ++ [rq]
    ∧ url rq = "https://api.macaddress.io/v1/"
    ∧ headers rq = [("x-Authentication-Token", api_key)]
    ∧ params rq = [("output", "json"); ("search", mac)].
Proof.
  exists (request_for mac api_key). split; [apply make_request_world|done].
Qed.

Lemma make_request_returns mac api_key w w' result :
  make_request mac api_key w = (inr result, w') →
  ∃ response body fields,
    requests_get w (request_for mac api_key) = inr response
    ∧ status_code response = 200%Z
    ∧ json_loads (text response) = inr (PDict body)
    ∧ assoc "vendorDetails" body = Some (PDict fields)
    ∧ MacAddressIO mac (PDict fields) = inr result
    ∧ w' = w ++ [request_for mac api_key].
Proof.
  intros Hrun.
  destruct (requests_get w (request_for mac api_key)) as [err|response] eqn:Hget.
  { by rewrite (make_request_transport _ _ _ _ Hget) in Hrun. }
  destruct (decide (status_code response = 200%Z)) as [Hs|Hs];
    [|by rewrite (make_request_non200 _ _ _ _ Hget Hs) in Hrun].
  rewrite (make_request_200 _ _ _ _ Hget Hs) in Hrun.
  destruct (json_loads (text response)) as [[msg|msg]|data] eqn:Hbody;
    [done|done|].
  destruct data as [| | | | | |body]; try done. cbn [py_get] in Hrun.
  injection Hrun as Hinit <-.
  destruct (MacAddressIO_dict _ _ _ Hinit) as [fields Hfields].
  destruct (assoc "vendorDetails" body) as [vd|] eqn:Hvd; cbn in Hfields; [|done].
  subst vd. by exists response, body, fields.
Qed.

(** X10: [make_request] returns an object exactly when the answer has status
    200, its body decodes to a [dict] and the constructor returns on the
    entry [vendorDetails] of that [dict]; the entry then is a [dict]. *)
Theorem make_request_returns_iff
    (mac : string) (api_key : option string) (w w' : World)
    (result : gmap string pyval) :
  make_request mac api_key w = (inr result, w')
  ↔ ∃ response body fields,
      requests_get w (request_for mac api_key) = inr response
      ∧ status_code response = 200%Z
      ∧ json_loads (text response) = inr (PDict body)
      ∧ assoc "vendorDetails" body = Some (PDict fields)
      ∧ MacAddressIO mac (PDict fields) = inr result
      ∧ w' = w ++ [request_for mac api_key].
Proof.
  split; [apply make_request_returns|].
  intros (response & body & fields & Hget & Hs & Hbody & Hvd & Hinit & ->).
  rewrite (make_request_200 _ _ _ _ Hget Hs), Hbody. cbn [py_get].
  by rewrite Hvd, <- Hinit.
Qed.

(** ** More on the batch *)

Lemma for_mac_returns macs api_key acc w rs w' :
  for_mac macs api_key acc w = (inr rs, w') →
  ∃ new,
    rs = acc ++ new
    ∧ w' = w ++ ((λ e, request_for (strip e) api_key) <$> macs)
    ∧ Forall2 (λ e r, validate_mac (strip e) = inr ()
                      ∧ ∃ fields, MacAddressIO (strip e) (PDict fields) = inr r)
        macs new.
Proof.
  revert acc w. induction macs as [|e macs IH]; intros acc w.
  - intros [= <- <-]. exists []. by rewrite !app_nil_r.
  - rewrite for_mac_cons.
    destruct (validate_mac (strip e)) as [x|[]] eqn:Hv; [done|].
    destruct (make_request (strip e) api_key w) as [[x|r] w1] eqn:Hrq; [done|].
    intros Hrest.
    apply make_request_returns in Hrq
      as (response & body & fields & _ & _ & _ & _ & Hinit & ->).
    apply IH in Hrest as (new & -> & -> & Hall).
    exists (r :: new). split; [by rewrite <- app_assoc|]. split.
    + cbn. by rewrite <- app_assoc.
    + constructor; [|done]. split; [done|by exists fields].
Qed.

(** X11: a list returned by [get_mac_details] has its results in the order
    in which the set was visited, one for each distinct entry, each built by
    the constructor for the trimmed entry, which passed validation; and one
    request was sent per entry, in that order. *)
Theorem returned_results_follow_iteration_order
    (mac_addresses : string) (api_key : option string) (w w' : World)
    (results : list (gmap string pyval)) :
  get_mac_details mac_addresses api_key w = (inr results, w') →
  w' = w ++ ((λ e, request_for (strip e) api_key)
             <$> set_iter (str_split "," mac_addresses))
  ∧ Forall2 (λ e r, validate_mac (strip e) = inr ()
                    ∧ ∃ fields, MacAddressIO (strip e) (PDict fields) = inr r)
      (set_iter (str_split "," mac_addresses)) results.
Proof.
  intros Hres.
  destruct (validate_api_key_exists api_key) as [x|[]] eqn:Hk.
  { rewrite get_mac_details_no_key in Hres by (by rewrite Hk). done. }
  rewrite (get_mac_details_key _ _ _ Hk) in Hres.
  by apply for_mac_returns in Hres as (new & -> & -> & Hall).
Qed.

Lemma set_iter_length l : length (set_iter l) = length (remove_dups l).
Proof.
  destruct (set_iter_ok l) as [Hnd Hel].
  apply Permutation_length, NoDup_Permutation; [done|apply NoDup_remove_dups|].
  intros x. by rewrite Hel, elem_of_remove_dups.
Qed.

(** X12: a batch never sends more requests than the input has distinct
    entries, and the log of requests only grows; a batch that returns has
    sent exactly one request per distinct entry. *)
Theorem requests_bounded_by_distinct_entries
    (mac_addresses : string) (api_key : option string) (w : World) :
  ∃ sent,
    (get_mac_details mac_addresses api_key w).2 = w ++ sent
    ∧ (length sent ≤ length (remove_dups (str_split "," mac_addresses)))%nat
    ∧ (∀ results, (get_mac_details mac_addresses api_key w).1 = inr results →
         length sent = length (remove_dups (str_split "," mac_addresses))
         ∧ length results = length sent).
Proof.
  destruct (validate_api_key_exists api_key) as [x|[]] eqn:Hk.
  { exists []. rewrite get_mac_details_no_key by (by rewrite Hk).
    cbn. rewrite app_nil_r. split; [done|]. split; [lia|done]. }
  rewrite (get_mac_details_key _ _ _ Hk).
  destruct (for_mac_trace (set_iter (str_split "," mac_addresses)) api_key [] w)
    as (visited & [k Hpre] & Hworld & _ & Hret).
  exists ((λ e, request_for (strip e) api_key) <$> visited).
  split; [done|]. rewrite length_fmap, <- set_iter_length. split.
  - rewrite Hpre, length_app. lia.
  - intros results Hresults. destruct (Hret results Hresults) as [-> Hlen].
    split; [done|]. cbn in Hlen. lia.
Qed.

(** X13: a 200 answer whose body [json.loads] cannot decode raises the
    decoder's error, a [ValueError]: the driver prints its message through
    the handler of the validation errors, and no table. *)
Theorem undecodable_body_is_reported_as_ValueError
    (mac_addresses : string) (api_key : option string) (w w1 : World)
    (pre post : list string) (e : string) (rs : list (gmap string pyval))
    (response : Response) (msg : string) :
  validate_api_key_exists api_key = inr () →
  set_iter (str_split "," mac_addresses) = pre ++ e :: post →
  for_mac pre api_key [] w = (inr rs, w1) →
  validate_mac (strip e) = inr () →
  requests_get w1 (request_for (strip e) api_key) = inr response →
  status_code response = 200%Z →
  json_loads (text response) = inl (NotJSON msg) →
  main mac_addresses api_key w
  = ({| printed := [PrintStr msg]; uncaught := None |},
     w1 ++ [request_for (strip e) api_key]).
Proof.
  intros Hk Hit Hpre Hv Hget H200 Hbody.
  unfold main. rewrite (get_mac_details_reach _ _ _ _ _ _ _ Hk Hit Hpre).
  by rewrite for_mac_cons, Hv, (make_request_200 _ _ _ _ Hget H200), Hbody.
Qed.

(** X22: a 200 answer whose body is nested too deeply for [json.loads]
    raises [RecursionError], which is not a [ValueError]: no handler catches
    it and nothing is printed. *)
Theorem too_deep_body_raises_RecursionError
    (mac_addresses : string) (api_key : option string) (w w1 : World)
    (pre post : list string) (e : string) (rs : list (gmap string pyval))
    (response : Response) (msg : string) :
  validate_api_key_exists api_key = inr () →
  set_iter (str_split "," mac_addresses) = pre ++ e :: post →
  for_mac pre api_key [] w = (inr rs, w1) →
  validate_mac (strip e) = inr () →
  requests_get w1 (request_for (strip e) api_key) = inr response →
  status_code response = 200%Z →
  json_loads (text response) = inl (TooDeep msg) →
  main mac_addresses api_key w
  = ({| printed := []; uncaught := Some (RecursionError msg) |},
     w1 ++ [request_for (strip e) api_key]).
Proof.
  intros Hk Hit Hpre Hv Hget H200 Hbody.
  unfold main. rewrite (get_mac_details_reach _ _ _ _ _ _ _ Hk Hit Hpre).
  by rewrite for_mac_cons, Hv, (make_request_200 _ _ _ _ Hget H200), Hbody.
Qed.

(** X14: a 200 answer whose body decodes to something that is not a [dict]
    (a list, a string, a number, [null]) makes [data.get] raise
    [AttributeError]; no handler catches it and nothing is printed. *)
Theorem non_dict_body_raises_AttributeError
    (mac_addresses : string) (api_key : option string) (w w1 : World)
    (pre post : list string) (e : string) (rs : list (gmap string pyval))
    (response : Response) (data : pyval) :
  validate_api_key_exists api_key = inr () →
  set_iter (str_split "," mac_addresses) = pre ++ e :: post →
  for_mac pre api_key [] w = (inr rs, w1) →
  validate_mac (strip e) = inr () →
  requests_get w1 (request_for (strip e) api_key) = inr response →
  status_code response = 200%Z →
  json_loads (text response) = inr data →
  (∀ body, data ≠ PDict body) →
  main mac_addresses api_key w
  = ({| printed := [];
        uncaught := Some (AttributeError ("'" +:+ type_name data
                            +:+ "' object has no attribute 'get'")) |},
     w1 ++ [request_for (strip e) api_key]).
Proof.
  intros Hk Hit Hpre Hv Hget H200 Hbody Hnd.
  unfold main. rewrite (get_mac_details_reach _ _ _ _ _ _ _ Hk Hit Hpre).
  rewrite for_mac_cons, Hv, (make_request_200 _ _ _ _ Hget H200), Hbody.
  destruct data; try done. by destruct (Hnd items).
Qed.

(** X15: when the API cannot be reached, [make_request] turns the error of
    the transport into [SystemExit]; the driver prints its banner and the
    error, and no table, whatever was looked up before. *)
Theorem transport_failure_prints_banner
    (mac_addresses : string) (api_key : option string) (w w1 : World)
    (pre post : list string) (e : string) (rs : list (gmap string pyval))
    (err : string) :
  validate_api_key_exists api_key = inr () →
  set_iter (str_split "," mac_addresses) = pre ++ e :: post →
  for_mac pre api_key [] w = (inr rs, w1) →
  validate_mac (strip e) = inr () →
  requests_get w1 (request_for (strip e) api_key) = inl err →
  make_request (strip e) api_key w1
  = (inl (SystemExit err), w1 ++ [request_for (strip e) api_key])
  ∧ main mac_addresses api_key w
    = ({| printed := [PrintStr banner; PrintStr err]; uncaught := None |},
       w1 ++ [request_for (strip e) api_key]).
Proof.
  intros Hk Hit Hpre Hv Hget.
  pose proof (make_request_transport _ _ _ _ Hget) as Hrq. split; [done|].
  unfold main. rewrite (get_mac_details_reach _ _ _ _ _ _ _ Hk Hit Hpre).
  by rewrite for_mac_cons, Hv, Hrq.
Qed.

(** ** More on the driver *)

Lemma add_rows_raises_AttributeError results e :
  add_rows results = inl e → ∃ msg, e = AttributeError msg.
Proof.
  induction results as [|r results IH]; [done|]. cbn [add_rows]. unfold getattr.
  destruct (r !! "mac"); [|intros [= <-]; by eexists].
  destruct (r !! "companyname"); [|intros [= <-]; by eexists].
  destruct (add_rows results) as [x|rows]; [|done].
  intros [= <-]. by apply IH.
Qed.

Lemma add_rows_rows results rows :
  add_rows results = inr rows →
  Forall2 (λ r row, ∃ m c, r !! "mac" = Some m ∧ r !! "companyname" = Some c
                           ∧ row = [m; c]) results rows.
Proof.
  revert rows. induction results as [|r results IH]; intros rows.
  - intros [= <-]. constructor.
  - cbn [add_rows]. unfold getattr.
    destruct (r !! "mac") as [m|] eqn:Hm; [|done].
    destruct (r !! "companyname") as [c|] eqn:Hc; [|done].
    destruct (add_rows results) as [x|rows']; [done|].
    intros [= <-]. constructor; [by exists m, c|by apply IH].
Qed.

Lemma add_rows_returns results :
  (∀ r, r ∈ results → is_Some (r !! "mac") ∧ is_Some (r !! "companyname")) →
  ∃ rows, add_rows results = inr rows.
Proof.
  induction results as [|r results IH]; intros Hall; [by eexists|].
  destruct (Hall r) as [[m Hm] [c Hc]]; [left|].
  destruct IH as [rows Hrows]; [intros r' Hr'; apply Hall; by right|].
  exists ([m; c] :: rows). cbn [add_rows]. unfold getattr. by rewrite Hm, Hc, Hrows.
Qed.

(** C8, amended: the batch is never empty, so a list returned by
    [get_mac_details] has at least one result, and the driver does not take
    the branch that prints [No results found.].  It then prints a table, one
    row per result, when every result has the attributes [mac] and
    [companyname]; when some result lacks one of them it prints nothing and
    ends with an [AttributeError] that no handler catches. *)
Theorem returned_results_nonempty_and_table_needs_fields
    (mac_addresses : string) (api_key : option string) (w w' : World)
    (results : list (gmap string pyval)) :
  get_mac_details mac_addresses api_key w = (inr results, w') →
  set_iter (str_split "," mac_addresses) ≠ []
  ∧ results ≠ []
  ∧ (main mac_addresses api_key w).1
    ≠ {| printed := [PrintStr "No results found."]; uncaught := None |}
  ∧ ((∀ r, r ∈ results → is_Some (r !! "mac") ∧ is_Some (r !! "companyname")) →
     ∃ rows, rows ≠ [] ∧ length rows = length results
       ∧ main mac_addresses api_key w
         = ({| printed := [PrintTable ["MAC"; "Company"] rows]; uncaught := None |},
            w'))
  ∧ ((∃ r, r ∈ results ∧ (r !! "mac" = None ∨ r !! "companyname" = None)) →
     ∃ msg,
       main mac_addresses api_key w
       = ({| printed := []; uncaught := Some (AttributeError msg) |}, w')).
Proof.
  intros Hres.
  pose proof (set_iter_nonempty _ (str_split_nonempty "," mac_addresses)) as Hne.
  pose proof (get_mac_details_length _ _ _ _ _ Hres) as Hlen.
  assert (results ≠ []) as Hresults.
  { intros ->. destruct (set_iter _); done. }
  split; [done|]. split; [done|].
  unfold main. rewrite Hres. destruct results as [|r0 results]; [done|].
  split; [|split].
  - by destruct (add_rows (r0 :: results)).
  - intros Hall. destruct (add_rows_returns _ Hall) as [rows Hrows].
    rewrite Hrows. exists rows. pose proof (add_rows_length _ _ Hrows) as Hrl.
    split; [by destruct rows|]. by split.
  - intros (r & Hin & Hmiss).
    destruct (add_rows (r0 :: results)) as [e|rows] eqn:Hrows.
    + destruct (add_rows_raises_AttributeError _ _ Hrows) as [msg ->]. by exists msg.
    + apply add_rows_rows in Hrows.
      apply list_elem_of_lookup in Hin as [i Hi].
      destruct (Forall2_lookup_l _ _ _ _ _ Hrows Hi)
        as (row & _ & m & c & Hm & Hc & _).
      destruct Hmiss; congruence.
Qed.


(** X17: when the driver prints a table, its header is [MAC | Company] and
    it has one row per distinct entry of the input, in the order of the
    results, each row being the [mac] and the [companyname] of its result. *)
Theorem printed_table_has_one_row_per_entry
    (args_mac : string) (API_KEY : option string) (w : World)
    (field_names : list string) (rows : list (list pyval)) :
  (main args_mac API_KEY w).1
  = {| printed := [PrintTable field_names rows]; uncaught := None |} →
  field_names = ["MAC"; "Company"]
  ∧ length rows = length (remove_dups (str_split "," args_mac))
  ∧ ∃ results,
      (get_mac_details args_mac API_KEY w).1 = inr results
      ∧ Forall2 (λ r row, ∃ m c, r !! "mac" = Some m
                                 ∧ r !! "companyname" = Some c
                                 ∧ row = [m; c]) results rows.
Proof.
  unfold main.
  destruct (get_mac_details args_mac API_KEY w) as [[[msg|msg|msg|msg|msg]|results] w']
    eqn:Hres; cbn; try done.
  destruct results as [|r results]; [done|].
  destruct (add_rows (r :: results)) as [e|rows'] eqn:Hrows; cbn; [done|].
  intros [= <- <-]. split; [done|].
  pose proof (get_mac_details_length _ _ _ _ _ Hres) as Hlen.
  rewrite set_iter_length in Hlen. split.
  - by rewrite (add_rows_length _ _ Hrows).
  - exists (r :: results). split; [done|]. by apply add_rows_rows.
Qed.

(** X18: one result without [companyname] is enough to lose the whole
    table: the driver prints nothing and ends with an [AttributeError]. *)
Theorem result_without_company_prevents_table
    (args_mac : string) (API_KEY : option string) (w w' : World)
    (results : list (gmap string pyval)) (r : gmap string pyval) :
  get_mac_details args_mac API_KEY w = (inr results, w') →
  r ∈ results →
  r !! "companyname" = None →
  ∃ msg,
    main args_mac API_KEY w
    = ({| printed := []; uncaught := Some (AttributeError msg) |}, w').
Proof.
  intros Hres Hin Hnone. unfold main. rewrite Hres.
  destruct results as [|r0 results]; [by apply elem_of_nil in Hin|].
  destruct (add_rows (r0 :: results)) as [e|rows] eqn:Hrows.
  - destruct (add_rows_raises_AttributeError _ _ Hrows) as [msg ->]. by exists msg.
  - apply add_rows_rows in Hrows.
    apply list_elem_of_lookup in Hin as [i Hi].
    destruct (Forall2_lookup_l _ _ _ _ _ Hrows Hi) as (row & _ & m & c & _ & Hc & _).
    congruence.
Qed.

(** X19: without an API key the script prints the message of the key check
    and sends nothing, whatever the MAC list is. *)
Theorem main_without_key
    (args_mac : string) (API_KEY : option string) (w : World) :
  API_KEY = None ∨ API_KEY = Some EmptyString →
  main args_mac API_KEY w
  = ({| printed := [PrintStr "API key was was not provided."]; uncaught := None |},
     w).
Proof.
  intros Hkey. unfold main.
  rewrite get_mac_details_no_key; [done|]. by destruct Hkey as [-> | ->].
Qed.

(** X20: blanks around a single entry do not matter: for a list without a
    comma, the lookup of the list and the lookup of the trimmed list are the
    same run. *)
Theorem surrounding_blanks_are_ignored
    (mac_addresses : string) (api_key : option string) (w : World) :
  ","%char ∉ chars mac_addresses →
  get_mac_details mac_addresses api_key w
  = get_mac_details (strip mac_addresses) api_key w
  ∧ main mac_addresses api_key w = main (strip mac_addresses) api_key w.
Proof.
  intros Hcomma.
  assert (get_mac_details mac_addresses api_key w
          = get_mac_details (strip mac_addresses) api_key w) as Heq.
  { destruct (validate_api_key_exists api_key) as [x|[]] eqn:Hk.
    { rewrite !get_mac_details_no_key by (by rewrite Hk). done. }
    rewrite !(get_mac_details_key _ _ _ Hk).
    rewrite (str_split_no_sep _ _ Hcomma).
    rewrite (str_split_no_sep _ (strip mac_addresses))
      by (intros Hin; by apply Hcomma, strip_chars).
    assert (∀ x, set_iter [x] = [x]) as Hone.
    { intros x. apply set_iter_single; [done|].
      intros p Hp. by apply list_elem_of_singleton in Hp. }
    by rewrite !Hone, !for_mac_cons, strip_idemp. }
  split; [done|]. unfold main. by rewrite Heq.
Qed.

(** ** The steps of the specification *)

Lemma str_app_assoc (a b c : string) : (a +:+ b) +:+ c = a +:+ (b +:+ c).
Proof. induction a as [|x a IH]; [done|exact (f_equal (String x) IH)]. Qed.

Lemma str_app_nil_r (a : string) : a +:+ EmptyString = a.
Proof. induction a as [|x a IH]; [done|exact (f_equal (String x) IH)]. Qed.

Lemma spec_split_from_str_split piece s :
  spec_split_from piece s
  = match str_split "," s with
    | p :: ps => (piece +:+ p) :: ps
    | [] => [piece]
    end.
Proof.
  revert piece. induction s as [|c s IH]; intros piece.
  - cbn. by rewrite str_app_nil_r.
  - cbn [spec_split_from str_split]. case_bool_decide as Hc.
    + subst c. rewrite Ascii.eqb_refl, IH, str_app_nil_r.
      pose proof (str_split_nonempty "," s). by destruct (str_split "," s).
    + apply Ascii.eqb_neq in Hc. rewrite Hc, IH.
      pose proof (str_split_nonempty "," s).
      destruct (str_split "," s) as [|q qs]; [done|].
      by rewrite str_app_assoc.
Qed.

Lemma spec_split_str_split s : spec_split s = str_split "," s.
Proof.
  unfold spec_split. rewrite spec_split_from_str_split.
  pose proof (str_split_nonempty "," s). by destruct (str_split "," s).
Qed.

Lemma chars_lstrip s : chars (lstrip s) = drop_blanks (chars s).
Proof.
  induction s as [|c s IH]; [done|]. cbn. by destruct (isspace c).
Qed.

Lemma drop_blanks_snoc l c :
  drop_blanks (l ++ [c])
  = match drop_blanks l with
    | [] => drop_blanks [c]
    | d => d ++ [c]
    end.
Proof.
  induction l as [|x l IH]; [by cbn; destruct (isspace c)|].
  cbn. destruct (isspace x); [done|]. done.
Qed.

Lemma chars_rstrip s : chars (rstrip s) = rev (drop_blanks (rev (chars s))).
Proof.
  induction s as [|c s IH]; [done|].
  cbn [rstrip]. unfold chars in *. cbn [String.list_ascii_of_string rev].
  rewrite drop_blanks_snoc.
  destruct (drop_blanks (rev (String.list_ascii_of_string s))) as [|d ds].
  - destruct (rstrip s); [|done]. cbn. by destruct (isspace c).
  - destruct (rstrip s) as [|x r]; cbn in IH.
    + apply (f_equal length) in IH. rewrite length_app in IH. cbn in IH. lia.
    + cbn [String.list_ascii_of_string]. rewrite IH, rev_app_distr. done.
Qed.

Lemma spec_trim_strip s : spec_trim s = strip s.
Proof.
  unfold spec_trim, strip.
  pose proof (chars_rstrip (lstrip s)) as Hr. rewrite chars_lstrip in Hr.
  unfold chars in Hr. rewrite <- Hr.
  apply String.string_of_list_ascii_of_string.
Qed.

Lemma validate_mac_invalid mac :
  spec_valid_mac mac = false →
  validate_mac mac
  = inl (ValueError ("MAC address (" +:+ mac +:+ ") did not pass length validation."))
  ∨ validate_mac mac
    = inl (ValueError ("MAC Address (" +:+ mac +:+ ") did not pass hex-only validation.")).
Proof.
  intros Hinv. pose proof (validate_mac_spec mac) as Hiff.
  rewrite validate_mac_unfold in *. unfold validate_mac_length, validate_hex_only in *.
  case_bool_decide; [|by left].
  destruct (fullmatch hex_only_pattern mac); [|by right].
  destruct Hiff as [Hiff _]. rewrite Hiff in Hinv; done.
Qed.

Lemma foldl_insert_list_to_map (fields : list (string * pyval))
    (self : gmap string pyval) :
  NoDup ((λ kv : string * pyval, (lower kv.1, kv.2)) <$> fields).*1 →
  foldl (λ m kv, <[lower kv.1 := kv.2]> m) self fields
  = list_to_map ((λ kv : string * pyval, (lower kv.1, kv.2)) <$> fields) ∪ self.
Proof.
  revert self. induction fields as [|[k v] fields IH]; intros self Hnd.
  - cbn. by rewrite (left_id_L ∅ (∪)).
  - cbn in Hnd. apply NoDup_cons in Hnd as [Hnotin Hnd].
    cbn [foldl fmap list_fmap list_to_map foldr]. rewrite (IH _ Hnd). cbn.
    rewrite <- insert_union_l. symmetry. apply insert_union_r.
    by apply not_elem_of_list_to_map_1.
Qed.

Lemma MacAddressIO_vendor_fields mac body fields :
  spec_vendor_fields (PDict body) = Some fields →
  ∃ vendorDetails,
    py_get (PDict body) "vendorDetails" = inr vendorDetails
    ∧ MacAddressIO mac vendorDetails
      = inr (to_object {| result_mac := mac; vendor_fields := fields |}).
Proof.
  unfold spec_vendor_fields. cbn [py_get].
  destruct (assoc "vendorDetails" body) as [[| | | | | |items]|]; try done.
  case_bool_decide as Hok; [|done]. intros [= <-]. destruct Hok as [Hnd Hplain].
  exists (PDict items). split; [done|].
  unfold MacAddressIO. cbn [py_items]. rewrite setattr_items_ordinary.
  - f_equal. rewrite (foldl_insert_list_to_map _ _ Hnd). unfold to_object. cbn.
    symmetry. apply insert_union_singleton_r, not_elem_of_list_to_map_1.
    intros Hmac. rewrite Forall_forall in Hplain. by destruct (Hplain _ Hmac).
  - intros k v Hin. rewrite Forall_forall in Hplain.
    apply (Hplain (lower k)). apply list_elem_of_fmap. exists (lower k, v).
    split; [done|]. apply list_elem_of_fmap. by exists (k, v).
Qed.

Lemma make_request_spec_query mac api_key w out w' :
  spec_query mac api_key w = Some (out, w') →
  match out with
  | inl (ValidationError _) => False
  | inl (ApiError m status) =>
      make_request mac api_key w = (inl (ValueError (status_message m status)), w')
  | inl (TransportFailure err) =>
      make_request mac api_key w = (inl (SystemExit err), w')
  | inr result => make_request mac api_key w = (inr (to_object result), w')
  end.
Proof.
  unfold spec_query.
  destruct (requests_get w (request_for mac api_key)) as [err|response] eqn:Hget.
  { intros [= <- <-]. by apply make_request_transport. }
  case_bool_decide as Hs;
    [|intros [= <- <-]; by apply make_request_non200].
  destruct (json_loads (text response)) as [?|data] eqn:Hbody; [done|].
  destruct (spec_vendor_fields data) as [fields|] eqn:Hfields; [|done].
  intros [= <- <-]. rewrite (make_request_200 _ _ _ _ Hget Hs), Hbody.
  destruct data as [| | | | | |body]; try done.
  destruct (MacAddressIO_vendor_fields mac _ _ Hfields) as (vd & -> & ->). done.
Qed.

Lemma for_mac_spec_steps macs api_key acc w out w' :
  spec_validate_and_query (strip <$> macs) api_key acc w = Some (out, w') →
  ∃ res, for_mac macs api_key (to_object <$> acc) w = (res, w')
         ∧ implements out res.
Proof.
  revert acc w. induction macs as [|e macs IH]; intros acc w.
  - intros [= <- <-]. by eexists.
  - cbn [fmap list_fmap spec_validate_and_query]. rewrite for_mac_cons.
    destruct (spec_valid_mac (strip e)) eqn:Hv.
    + apply validate_mac_spec in Hv. rewrite Hv.
      destruct (spec_query (strip e) api_key w) as [[[failure|result] w1]|] eqn:Hq;
        [| |done].
      * intros [= <- <-]. apply make_request_spec_query in Hq.
        destruct failure as [m|m status|err]; [done| |]; rewrite Hq; by eexists.
      * intros Hrest. apply make_request_spec_query in Hq. rewrite Hq.
        apply IH in Hrest as (res & Hrun & Himpl).
        exists res. split; [|done]. by rewrite fmap_app in Hrun.
    + intros [= <- <-]. destruct (validate_mac_invalid _ Hv) as [-> | ->];
        eexists; (split; [done|]); [by left|by right].
Qed.

Lemma spec_query_defined mac api_key w :
  answers_as_specified → is_Some (spec_query mac api_key w).
Proof.
  intros Hapi. unfold spec_query.
  destruct (requests_get w (request_for mac api_key)) as [err|response] eqn:Hget;
    [done|].
  case_bool_decide as Hs; [|done].
  destruct (Hapi _ _ _ Hget Hs) as (data & fields & -> & ->). done.
Qed.

Lemma spec_validate_and_query_defined pieces api_key acc w :
  answers_as_specified → is_Some (spec_validate_and_query pieces api_key acc w).
Proof.
  intros Hapi. revert acc w. induction pieces as [|mac pieces IH]; intros acc w;
    [done|].
  cbn [spec_validate_and_query]. destruct (spec_valid_mac mac); [|done].
  destruct (spec_query_defined mac api_key w Hapi) as [[[failure|result] w1] ->];
    [done|apply IH].
Qed.

(** C6: with a key, [get_mac_details] does what the steps of the
    specification do, in their order: split on commas, deduplicate through a
    set, trim each piece, then validate and query piece after piece while
    accumulating the results.  Whenever the steps give an outcome, the code
    ends with the same log of requests and with what stands for that outcome:
    the objects of the results in the same order, or the exception of the
    failure; and the steps give an outcome whenever the API answers as
    specified. *)
Theorem get_mac_details_follows_steps
    (mac_addresses : string) (api_key : option string) (w : World) :
  validate_api_key_exists api_key = inr () →
  (∀ out w',
     lookupAll_steps mac_addresses api_key w = Some (out, w') →
     ∃ res, get_mac_details mac_addresses api_key w = (res, w')
            ∧ implements out res)
  ∧ (answers_as_specified → is_Some (lookupAll_steps mac_addresses api_key w)).
Proof.
  intros Hk. split.
  - intros out w'. unfold lookupAll_steps.
    rewrite spec_split_str_split, (get_mac_details_key _ _ _ Hk).
    rewrite (list_fmap_ext spec_trim strip) by (intros; apply spec_trim_strip).
    apply (for_mac_spec_steps _ _ []).
  - intros Hapi. by apply spec_validate_and_query_defined.
Qed.

(** ** A stateless API *)

Lemma make_request_stateless mac api_key w w0 :
  stateless requests_get →
  (make_request mac api_key w).1 = (make_request mac api_key w0).1.
Proof.
  intros Hst. pose proof (Hst w w0 (request_for mac api_key)) as Hsame.
  destruct (requests_get w0 (request_for mac api_key)) as [err|response] eqn:Hget0.
  - by rewrite (make_request_transport _ _ _ _ Hsame),
      (make_request_transport _ _ _ _ Hget0).
  - destruct (decide (status_code response = 200%Z)) as [Hs|Hs].
    + by rewrite (make_request_200 _ _ _ _ Hsame Hs),
        (make_request_200 _ _ _ _ Hget0 Hs).
    + by rewrite (make_request_non200 _ _ _ _ Hsame Hs),
        (make_request_non200 _ _ _ _ Hget0 Hs).
Qed.

Lemma for_mac_stateless_returns macs api_key acc w rs w' :
  stateless requests_get →
  for_mac macs api_key acc w = (inr rs, w') →
  ∃ new,
    rs = acc ++ new
    ∧ Forall2 (λ e r, validate_mac (strip e) = inr ()
                      ∧ (make_request (strip e) api_key []).1 = inr r) macs new.
Proof.
  intros Hst. revert acc w. induction macs as [|e macs IH]; intros acc w.
  - intros [= <- <-]. exists []. by rewrite app_nil_r.
  - rewrite for_mac_cons.
    destruct (validate_mac (strip e)) as [x|[]] eqn:Hv; [done|].
    destruct (make_request (strip e) api_key w) as [[x|r] w1] eqn:Hrq; [done|].
    intros Hrest. apply IH in Hrest as (new & -> & Hall).
    exists (r :: new). split; [by rewrite <- app_assoc|].
    constructor; [|done]. split; [done|].
    by rewrite (make_request_stateless _ _ [] w Hst), Hrq.
Qed.

Lemma for_mac_stateless_runs macs api_key acc w new :
  stateless requests_get →
  Forall2 (λ e r, validate_mac (strip e) = inr ()
                  ∧ (make_request (strip e) api_key []).1 = inr r) macs new →
  for_mac macs api_key acc w
  = (inr (acc ++ new), w ++ ((λ e, request_for (strip e) api_key) <$> macs)).
Proof.
  intros Hst Hall. revert acc w.
  induction Hall as [|e r macs new [Hv Hr] _ IH]; intros acc w.
  - cbn. by rewrite !app_nil_r.
  - rewrite for_mac_cons, Hv.
    pose proof (make_request_world (strip e) api_key w) as Hw.
    rewrite (make_request_stateless _ _ [] w Hst) in Hr.
    destruct (make_request (strip e) api_key w) as [res w1]. cbn in Hr, Hw.
    subst res w1. rewrite IH. cbn. by rewrite <- !app_assoc.
Qed.

End Lookup.

(** * The statements on concrete runs *)

Lemma first_seen_ok : set_iteration first_seen.
Proof.
  intros l. split; [apply NoDup_remove_dups|]. intros x. apply elem_of_remove_dups.
Qed.

Lemma last_seen_ok : set_iteration last_seen.
Proof.
  intros l. unfold last_seen. split.
  - rewrite reverse_Permutation. apply NoDup_remove_dups.
  - intros x. rewrite elem_of_reverse. apply elem_of_remove_dups.
Qed.

(** The two inputs of the specification's examples: twelve digits pass,
    eleven do not. *)
Example validate_mac_twelve_eleven :
  validate_mac "AABBCCDDEEFF" = inr ()
  ∧ validate_mac "AABBCCDDEEF"
    = inl (ValueError "MAC address (AABBCCDDEEF) did not pass length validation.").
Proof. split; reflexivity. Qed.

(** A lower-case digit is outside the class, and a final newline is not
    swallowed by the [$] of the pattern. *)
Example validate_mac_rejects :
  validate_mac "aabbccddeeff"
  = inl (ValueError "MAC Address (aabbccddeeff) did not pass hex-only validation.")
  ∧ fullmatch hex_only_pattern (String "A" (String newline EmptyString)) = false.
Proof. split; reflexivity. Qed.

Lemma validate_mac_ignores_delimiter_placement_witness :
  validate_mac "AABB:CCDD.EE" = inr ()
  ∧ validate_mac "AABBCCDDEEFF00112" = inr ().
Proof.
  split.
  - apply (proj1 (validate_mac_ignores_delimiter_placement "AABB:CCDD.EE"));
      [reflexivity|reflexivity|].
    left. apply list_elem_of_In. vm_compute. tauto.
  - apply (proj2 (validate_mac_ignores_delimiter_placement "AABBCCDDEEFF00112"));
      reflexivity.
Defined.

Lemma no_key_or_empty_list_witness :
  get_mac_details (api_answers 200 acme_text) mock_loads first_seen
    "AA:BB:CC:DD:EE:FF" None []
  = (inl (ValueError "API key was was not provided."), [])
  ∧ ∃ msg,
      get_mac_details (api_answers 200 acme_text) mock_loads first_seen
        EmptyString (Some "key") []
      = (inl (ValueError msg), []).
Proof.
  split.
  - apply (proj1 (no_key_or_empty_list_raises_before_any_request
                    (api_answers 200 acme_text) mock_loads first_seen first_seen_ok
                    "AA:BB:CC:DD:EE:FF" None [])).
    left. reflexivity.
  - apply (proj2 (no_key_or_empty_list_raises_before_any_request
                    (api_answers 200 acme_text) mock_loads first_seen first_seen_ok
                    "AA:BB:CC:DD:EE:FF" (Some "key") [])).
Defined.

Lemma invalid_entry_aborts_batch_witness :
  ∃ exc sent,
    get_mac_details (api_answers 200 acme_text) mock_loads last_seen
      "AA:BB:CC:DD:EE:FF,NOPE" (Some "key") []
    = (inl exc, [] ++ sent)
    ∧ ∀ rq, rq ∈ sent →
        ∃ m, rq = request_for m (Some "key") ∧ validate_mac m = inr ().
Proof.
  destruct (invalid_entry_aborts_batch
              (api_answers 200 acme_text) mock_loads last_seen last_seen_ok
              "AA:BB:CC:DD:EE:FF,NOPE" (Some "key") [])
    as (exc & sent & Hrun & Hsent & _).
  - exists "NOPE". split.
    + apply list_elem_of_In. vm_compute. tauto.
    + vm_compute. discriminate.
  - exists exc, sent. split; assumption.
Defined.

Lemma repeated_entry_queried_at_most_once_witness :
  ∃ visited,
    (get_mac_details (api_answers 200 acme_text) mock_loads first_seen
       "AA:BB:CC:DD:EE:FF,AA:BB:CC:DD:EE:FF" (Some "key") []).2
    = [] ++ ((λ e, request_for (strip e) (Some "key")) <$> visited)
    ∧ (length visited ≤ 1)%nat.
Proof.
  destruct (repeated_entry_queried_at_most_once
              (api_answers 200 acme_text) mock_loads first_seen first_seen_ok
              "AA:BB:CC:DD:EE:FF,AA:BB:CC:DD:EE:FF" (Some "key") [])
    as (visited & Hworld & _ & _ & _ & Hone).
  exists visited. split; [exact Hworld|].
  apply (Hone "AA:BB:CC:DD:EE:FF"). intros p Hp.
  apply list_elem_of_In in Hp. vm_compute in Hp.
  destruct Hp as [<-|[<-|[]]]; reflexivity.
Defined.

Lemma get_mac_details_follows_steps_witness :
  ∃ res,
    get_mac_details (api_answers 200 acme_text) mock_loads first_seen
      " AABBCCDDEEFF,AA:BB:CC:DD:EE:FF" (Some "key") []
    = (res, [request_for "AABBCCDDEEFF" (Some "key");
             request_for "AA:BB:CC:DD:EE:FF" (Some "key")])
    ∧ implements
        (inr [{| result_mac := "AABBCCDDEEFF";
                 vendor_fields := [("companyname", PStr "Acme")] |};
              {| result_mac := "AA:BB:CC:DD:EE:FF";
                 vendor_fields := [("companyname", PStr "Acme")] |}])
        res.
Proof.
  apply (proj1 (get_mac_details_follows_steps
                  (api_answers 200 acme_text) mock_loads first_seen
                  " AABBCCDDEEFF,AA:BB:CC:DD:EE:FF" (Some "key") [] eq_refl)).
  vm_compute. reflexivity.
Defined.

(** The steps on a batch that fails: the malformed piece ends it after the
    request for the piece before, and a 404 is an [ApiError]. *)
Example lookupAll_steps_failures :
  lookupAll_steps (api_answers 200 acme_text) mock_loads first_seen
    "AABBCCDDEEFF, NOPE " (Some "key") []
  = Some (inl (ValidationError "NOPE"), [request_for "AABBCCDDEEFF" (Some "key")])
  ∧ lookupAll_steps (api_answers 404 EmptyString) mock_loads first_seen
      "AABBCCDDEEFF" (Some "key") []
    = Some (inl (ApiError "AABBCCDDEEFF" 404),
            [request_for "AABBCCDDEEFF" (Some "key")])
  ∧ lookupAll_steps (api_answers 200 empty_text) mock_loads first_seen
      "AABBCCDDEEFF" (Some "key") []
    = None.
Proof. repeat split; vm_compute; reflexivity. Qed.

(** Entries are compared before they are trimmed: two entries that differ
    only in the surrounding blanks are two elements of the set, and each is
    queried. *)
Example untrimmed_variants_are_distinct_entries :
  (get_mac_details (api_answers 200 acme_text) mock_loads first_seen
     "AABBCCDDEEFF, AABBCCDDEEFF" (Some "key") []).2
  = [request_for "AABBCCDDEEFF" (Some "key");
     request_for "AABBCCDDEEFF" (Some "key")].
Proof. reflexivity. Qed.

(** The iteration order decides what is sent before a malformed entry. *)
Example order_decides_requests_before_failure :
  (get_mac_details (api_answers 200 acme_text) mock_loads first_seen
     "AABBCCDDEEFF,NOPE" (Some "key") []).2
  = [request_for "AABBCCDDEEFF" (Some "key")]
  ∧ (get_mac_details (api_answers 200 acme_text) mock_loads last_seen
       "AABBCCDDEEFF,NOPE" (Some "key") []).2
    = [].
Proof. split; reflexivity. Qed.

Lemma acme_result_and_constructed_fields_witness :
  (∃ result,
     get_mac_details (api_answers 200 acme_text) mock_loads first_seen
       "AA:BB:CC:DD:EE:FF" (Some "key") []
     = (inr [result], [] ++ [request_for (strip "AA:BB:CC:DD:EE:FF") (Some "key")])
     ∧ getattr result "mac" = inr (PStr (strip "AA:BB:CC:DD:EE:FF"))
     ∧ getattr result "companyname" = inr (PStr "Acme"))
  ∧ (∃ items,
       PDict [("companyName", PStr "Acme")] = PDict items
       ∧ is_Some ((<["companyname" := PStr "Acme"]> {["mac" := PStr "AA:BB:CC:DD:EE:FF"]}
                   : gmap string pyval) !! "mac")
       ∧ dom (<["companyname" := PStr "Acme"]> {["mac" := PStr "AA:BB:CC:DD:EE:FF"]}
              : gmap string pyval)
         = {["mac"]} ∪ list_to_set (lower <$> items.*1)).
Proof.
  destruct (acme_result_and_constructed_fields
              (api_answers 200 acme_text) mock_loads first_seen first_seen_ok)
    as [Hone Hfields].
  split.
  - apply (Hone "AA:BB:CC:DD:EE:FF" (Some "key") [] "AA:BB:CC:DD:EE:FF"
             {| status_code := 200; text := acme_text |});
      try reflexivity.
    intros p Hp. apply list_elem_of_In in Hp. vm_compute in Hp.
    destruct Hp as [<-|[]]. reflexivity.
  - apply (Hfields "AA:BB:CC:DD:EE:FF" (PDict [("companyName", PStr "Acme")])).
    + reflexivity.
    + intros items k v [= <-] Hin. apply list_elem_of_In in Hin.
      destruct Hin as [[= <- <-]|[]]. vm_compute. discriminate.
Defined.

Lemma returned_results_nonempty_and_table_needs_fields_witness :
  ∃ rows, rows ≠ [] ∧ length rows = 1%nat
    ∧ main (api_answers 200 acme_text) mock_loads first_seen
        "AABBCCDDEEFF" (Some "key") []
      = ({| printed := [PrintTable ["MAC"; "Company"] rows]; uncaught := None |},
         [request_for "AABBCCDDEEFF" (Some "key")]).
Proof.
  destruct (returned_results_nonempty_and_table_needs_fields
              (api_answers 200 acme_text) mock_loads first_seen first_seen_ok
              "AABBCCDDEEFF" (Some "key") [] [request_for "AABBCCDDEEFF" (Some "key")]
              [<["companyname" := PStr "Acme"]> {["mac" := PStr "AABBCCDDEEFF"]}]
              eq_refl)
    as (_ & _ & _ & Htable & _).
  apply Htable. intros r Hr. apply list_elem_of_In in Hr.
  destruct Hr as [<-|[]]. split; eexists; reflexivity.
Defined.

(** C8 as stated fails: on a 200 answer whose [vendorDetails] has no
    [companyName], [get_mac_details] returns one result, and the driver
    prints no table: reading [result.companyname] raises. *)
Lemma returned_result_without_company_prints_no_table :
  get_mac_details (api_answers 200 anonymous_text) more_loads first_seen
    "AABBCCDDEEFF" (Some "key") []
  = (inr [<["countrycode" := PStr "US"]> {["mac" := PStr "AABBCCDDEEFF"]}],
     [request_for "AABBCCDDEEFF" (Some "key")])
  ∧ main (api_answers 200 anonymous_text) more_loads first_seen
      "AABBCCDDEEFF" (Some "key") []
    = ({| printed := [];
          uncaught := Some (AttributeError
                              "'MacAddressIO' object has no attribute 'companyname'") |},
       [request_for "AABBCCDDEEFF" (Some "key")]).
Proof. split; reflexivity. Qed.

Lemma missing_vendorDetails_witness :
  main (api_answers 200 empty_text) mock_loads first_seen
    "AABBCCDDEEFF" (Some "key") []
  = ({| printed := [];
        uncaught := Some (AttributeError "'NoneType' object has no attribute 'items'") |},
     [] ++ [request_for (strip "AABBCCDDEEFF") (Some "key")]).
Proof.
  pose proof (missing_vendorDetails_raises_AttributeError
                (api_answers 200 empty_text) mock_loads first_seen
                "AABBCCDDEEFF" (Some "key") [] [] [] [] "AABBCCDDEEFF" []
                {| status_code := 200; text := empty_text |} []
                eq_refl eq_refl eq_refl eq_refl eq_refl eq_refl eq_refl eq_refl)
    as H.
  cbv zeta in H. destruct H as (_ & _ & _ & Hmain & _). exact Hmain.
Defined.

Lemma non200_is_reported_as_ValueError_witness :
  main (api_answers 404 EmptyString) mock_loads first_seen
    "AA:BB:CC:DD:EE:FF" (Some "key") []
  = ({| printed := [PrintStr (status_message (strip "AA:BB:CC:DD:EE:FF") 404)];
        uncaught := None |},
     [] ++ [request_for (strip "AA:BB:CC:DD:EE:FF") (Some "key")]).
Proof.
  assert (status_code {| status_code := 404; text := EmptyString |} ≠ 200%Z)
    as Hstatus by discriminate.
  pose proof (non200_is_reported_as_ValueError
                (api_answers 404 EmptyString) mock_loads first_seen
                "AA:BB:CC:DD:EE:FF" (Some "key") [] [] [] [] "AA:BB:CC:DD:EE:FF" []
                {| status_code := 404; text := EmptyString |}
                eq_refl eq_refl eq_refl eq_refl eq_refl Hstatus)
    as H.
  cbv zeta in H. destruct H as (_ & Hmain & _). exact Hmain.
Defined.

(** C2 as stated fails: on a 404 the driver prints the message of the
    [ValueError] and nothing else, which is not what its [SystemExit] handler
    leaves behind; that handler runs when the API cannot be reached. *)
Lemma non200_does_not_take_fatal_path :
  (main (api_answers 404 EmptyString) mock_loads first_seen
     "AA:BB:CC:DD:EE:FF" (Some "key") []).1
  = {| printed :=
         [PrintStr "There was a problem gathering details for AA:BB:CC:DD:EE:FF. Response: 404"];
       uncaught := None |}
  ∧ ¬ fatal_path (main (api_answers 404 EmptyString) mock_loads first_seen
                    "AA:BB:CC:DD:EE:FF" (Some "key") []).1
  ∧ fatal_path (main api_down mock_loads first_seen
                  "AA:BB:CC:DD:EE:FF" (Some "key") []).1.
Proof.
  split; [reflexivity|]. split.
  - intros [msg Hmsg]. vm_compute in Hmsg. discriminate Hmsg.
  - exists "Connection refused". reflexivity.
Qed.

(** C7 as stated fails: a [vendorDetails] with the key [__dict__] replaces
    the attribute dictionary of the object under construction, and the
    object has no [mac] any more; the driver then fails on [result.mac]. *)
Lemma dunder_dict_key_removes_mac :
  (∃ self,
     MacAddressIO "AA:BB:CC:DD:EE:FF" (PDict [("__dict__", PDict [])]) = inr self
     ∧ self !! "mac" = None)
  ∧ main (api_answers 200 dunder_text) mock_loads first_seen
      "AA:BB:CC:DD:EE:FF" (Some "key") []
    = ({| printed := [];
          uncaught := Some (AttributeError "'MacAddressIO' object has no attribute 'mac'") |},
       [request_for "AA:BB:CC:DD:EE:FF" (Some "key")]).
Proof.
  split; [|reflexivity].
  exists ∅. split; reflexivity.
Qed.

(** * The iteration order and a stateless API *)

(** X21: when the API answers from the request alone, the iteration order of
    the set does not decide whether a batch returns: a batch that returns
    under one order returns under every other, with the same results and the
    same requests up to their order. *)
Theorem stateless_api_outcome_ignores_order
    (requests_get : World → Request → string + Response)
    (json_loads : string → decode_error + pyval)
    (set_iter1 set_iter2 : list string → list string)
    (mac_addresses : string) (api_key : option string) (w w1 : World)
    (results1 : list (gmap string pyval)) :
  stateless requests_get →
  set_iteration set_iter1 →
  set_iteration set_iter2 →
  get_mac_details requests_get json_loads set_iter1 mac_addresses api_key w
  = (inr results1, w1) →
  ∃ results2 sent1 sent2,
    get_mac_details requests_get json_loads set_iter2 mac_addresses api_key w
    = (inr results2, w ++ sent2)
    ∧ w1 = w ++ sent1
    ∧ results1 ≡ₚ results2
    ∧ sent1 ≡ₚ sent2.
Proof.
  intros Hst Hit1 Hit2 Hrun.
  destruct (validate_api_key_exists api_key) as [x|[]] eqn:Hk.
  { rewrite get_mac_details_no_key in Hrun by (by rewrite Hk). done. }
  rewrite (get_mac_details_key _ _ _ _ _ _ Hk) in Hrun.
  rewrite (get_mac_details_key _ _ _ _ _ _ Hk).
  set (pieces := str_split "," mac_addresses) in *.
  assert (set_iter1 pieces ≡ₚ set_iter2 pieces) as Hperm.
  { destruct (Hit1 pieces) as [Hnd1 Hel1], (Hit2 pieces) as [Hnd2 Hel2].
    apply NoDup_Permutation; [done|done|]. intros x. by rewrite Hel1, Hel2. }
  pose proof (for_mac_trace requests_get json_loads (set_iter1 pieces) api_key [] w)
    as (visited & _ & Hworld & _ & Hret).
  rewrite Hrun in Hworld, Hret. cbn in Hworld.
  destruct (Hret results1 eq_refl) as [-> _].
  destruct (for_mac_stateless_returns _ _ _ _ _ _ _ _ Hst Hrun)
    as (new1 & -> & Hall1).
  destruct (Permutation_Forall2 Hperm Hall1) as (new2 & Hnew & Hall2).
  exists new2, ((λ e, request_for (strip e) api_key) <$> set_iter1 pieces),
    ((λ e, request_for (strip e) api_key) <$> set_iter2 pieces).
  split; [|split; [done|split; [done|by apply fmap_Permutation]]].
  by rewrite (for_mac_stateless_runs _ _ _ _ [] w new2 Hst Hall2).
Qed.


(** * The further properties on concrete runs *)

Lemma api_answers_stateless status body : stateless (api_answers status body).
Proof. intros w w' rq. reflexivity. Qed.

Lemma constructor_last_key_wins_witness :
  ∃ self,
    MacAddressIO "AABBCCDDEEFF" (PDict colliding_fields) = inr self
    ∧ self !! "companyname" = Some (PStr "Apex")
    ∧ self !! "mac" = Some (PStr "AABBCCDDEEFF").
Proof.
  destruct (constructor_last_key_wins "AABBCCDDEEFF" colliding_fields)
    as (self & Hinit & Hlast & Hmac & _).
  - intros k v Hin. apply list_elem_of_In in Hin.
    destruct Hin as [[= <- <-]|[[= <- <-]|[]]]; reflexivity.
  - exists self. split; [exact Hinit|]. split.
    + apply (Hlast [("companyName", PStr "Acme")] "COMPANYNAME" (PStr "Apex") []);
        [reflexivity|].
      intros k' v' Hin. apply list_elem_of_In in Hin. destruct Hin.
    + apply Hmac. intros k v Hin. apply list_elem_of_In in Hin.
      destruct Hin as [[= <- <-]|[[= <- <-]|[]]]; vm_compute; discriminate.
Defined.

Lemma constructor_raises_on_read_only_names_witness :
  ∃ e, MacAddressIO "AABBCCDDEEFF"
         (PDict [("companyName", PStr "Acme"); ("__CLASS__", PStr "str")])
       = inl e.
Proof.
  apply (constructor_raises_on_read_only_names "AABBCCDDEEFF"
           [("companyName", PStr "Acme"); ("__CLASS__", PStr "str")]
           "__CLASS__" (PStr "str")).
  - apply list_elem_of_In. right. left. reflexivity.
  - left. reflexivity.
Defined.

Lemma constructed_names_are_lower_case_witness :
  lower "companyname" = "companyname".
Proof.
  apply (constructed_names_are_lower_case "AABBCCDDEEFF"
           [("companyName", PStr "Acme")]
           (<["companyname" := PStr "Acme"]> {["mac" := PStr "AABBCCDDEEFF"]})).
  - reflexivity.
  - intros k v Hin. apply list_elem_of_In in Hin.
    destruct Hin as [[= <- <-]|[]]. vm_compute. discriminate.
  - apply elem_of_dom. exists (PStr "Acme"). reflexivity.
Defined.

Lemma returned_results_follow_iteration_order_witness :
  [request_for "AABBCCDDEEFF" (Some "key");
   request_for "AA:BB:CC:DD:EE:FF" (Some "key")]
  = [] ++ ((λ e, request_for (strip e) (Some "key"))
           <$> last_seen (str_split "," "AA:BB:CC:DD:EE:FF, AABBCCDDEEFF")).
Proof.
  apply (returned_results_follow_iteration_order
           (api_answers 200 acme_text) mock_loads last_seen
           "AA:BB:CC:DD:EE:FF, AABBCCDDEEFF" (Some "key") []
           [request_for "AABBCCDDEEFF" (Some "key");
            request_for "AA:BB:CC:DD:EE:FF" (Some "key")]
           [<["companyname" := PStr "Acme"]> {["mac" := PStr "AABBCCDDEEFF"]};
            <["companyname" := PStr "Acme"]> {["mac" := PStr "AA:BB:CC:DD:EE:FF"]}]).
  reflexivity.
Defined.

Lemma requests_bounded_by_distinct_entries_witness :
  ∃ sent,
    (get_mac_details (api_answers 200 acme_text) mock_loads first_seen
       "AABBCCDDEEFF,NOPE,AABBCCDDEEFF" (Some "key") []).2 = [] ++ sent
    ∧ (length sent
       ≤ length (remove_dups (str_split "," "AABBCCDDEEFF,NOPE,AABBCCDDEEFF")))%nat.
Proof.
  destruct (requests_bounded_by_distinct_entries
              (api_answers 200 acme_text) mock_loads first_seen first_seen_ok
              "AABBCCDDEEFF,NOPE,AABBCCDDEEFF" (Some "key") [])
    as (sent & Hworld & Hbound & _).
  exists sent. split; assumption.
Defined.

Lemma undecodable_body_witness :
  main (api_answers 200 "<html>") mock_loads first_seen
    "AABBCCDDEEFF" (Some "key") []
  = ({| printed := [PrintStr "Expecting value: line 1 column 1 (char 0)"];
        uncaught := None |},
     [] ++ [request_for (strip "AABBCCDDEEFF") (Some "key")]).
Proof.
  exact (undecodable_body_is_reported_as_ValueError
           (api_answers 200 "<html>") mock_loads first_seen
           "AABBCCDDEEFF" (Some "key") [] [] [] [] "AABBCCDDEEFF" []
           {| status_code := 200; text := "<html>" |}
           "Expecting value: line 1 column 1 (char 0)"
           eq_refl eq_refl eq_refl eq_refl eq_refl eq_refl eq_refl).
Defined.

Lemma too_deep_body_witness :
  main (api_answers 200 "[[[[") deep_loads first_seen
    "AABBCCDDEEFF" (Some "key") []
  = ({| printed := [];
        uncaught := Some (RecursionError "maximum recursion depth exceeded") |},
     [] ++ [request_for (strip "AABBCCDDEEFF") (Some "key")]).
Proof.
  exact (too_deep_body_raises_RecursionError
           (api_answers 200 "[[[[") deep_loads first_seen
           "AABBCCDDEEFF" (Some "key") [] [] [] [] "AABBCCDDEEFF" []
           {| status_code := 200; text := "[[[[" |}
           "maximum recursion depth exceeded"
           eq_refl eq_refl eq_refl eq_refl eq_refl eq_refl eq_refl).
Defined.

Lemma non_dict_body_witness :
  main (api_answers 200 list_text) more_loads first_seen
    "AABBCCDDEEFF" (Some "key") []
  = ({| printed := [];
        uncaught := Some (AttributeError ("'" +:+ type_name list_data
                            +:+ "' object has no attribute 'get'")) |},
     [] ++ [request_for (strip "AABBCCDDEEFF") (Some "key")]).
Proof.
  apply (non_dict_body_raises_AttributeError
           (api_answers 200 list_text) more_loads first_seen
           "AABBCCDDEEFF" (Some "key") [] [] [] [] "AABBCCDDEEFF" []
           {| status_code := 200; text := list_text |} list_data
           eq_refl eq_refl eq_refl eq_refl eq_refl eq_refl eq_refl).
  intros body. discriminate.
Defined.

Lemma printed_table_has_one_row_per_entry_witness :
  ["MAC"; "Company"] = ["MAC"; "Company"]
  ∧ length [[PStr "AABBCCDDEEFF"; PStr "Acme"];
            [PStr "AA:BB:CC:DD:EE:FF"; PStr "Acme"]]
    = length (remove_dups (str_split "," "AABBCCDDEEFF,AABBCCDDEEFF,AA:BB:CC:DD:EE:FF")).
Proof.
  destruct (printed_table_has_one_row_per_entry
              (api_answers 200 acme_text) mock_loads first_seen first_seen_ok
              "AABBCCDDEEFF,AABBCCDDEEFF,AA:BB:CC:DD:EE:FF" (Some "key") []
              ["MAC"; "Company"]
              [[PStr "AABBCCDDEEFF"; PStr "Acme"];
               [PStr "AA:BB:CC:DD:EE:FF"; PStr "Acme"]] eq_refl)
    as (Hnames & Hlen & _).
  split; assumption.
Defined.

Lemma result_without_company_witness :
  ∃ msg,
    main (api_answers 200 anonymous_text) more_loads first_seen
      "AABBCCDDEEFF" (Some "key") []
    = ({| printed := []; uncaught := Some (AttributeError msg) |},
       [request_for "AABBCCDDEEFF" (Some "key")]).
Proof.
  apply (result_without_company_prevents_table
           (api_answers 200 anonymous_text) more_loads first_seen
           "AABBCCDDEEFF" (Some "key") [] [request_for "AABBCCDDEEFF" (Some "key")]
           [<["countrycode" := PStr "US"]> {["mac" := PStr "AABBCCDDEEFF"]}]
           (<["countrycode" := PStr "US"]> {["mac" := PStr "AABBCCDDEEFF"]})).
  - reflexivity.
  - apply list_elem_of_In. left. reflexivity.
  - reflexivity.
Defined.

Lemma main_without_key_witness :
  main (api_answers 200 acme_text) mock_loads first_seen
    "AABBCCDDEEFF" (Some EmptyString) []
  = ({| printed := [PrintStr "API key was was not provided."]; uncaught := None |},
     []).
Proof.
  apply (main_without_key (api_answers 200 acme_text) mock_loads first_seen
           "AABBCCDDEEFF" (Some EmptyString) []).
  right. reflexivity.
Defined.

Lemma surrounding_blanks_are_ignored_witness :
  main (api_answers 200 acme_text) mock_loads first_seen
    "  AABBCCDDEEFF " (Some "key") []
  = main (api_answers 200 acme_text) mock_loads first_seen
      (strip "  AABBCCDDEEFF ") (Some "key") [].
Proof.
  apply (surrounding_blanks_are_ignored
           (api_answers 200 acme_text) mock_loads first_seen first_seen_ok
           "  AABBCCDDEEFF " (Some "key") []).
  intros Hin. apply list_elem_of_In in Hin. vm_compute in Hin.
  repeat (destruct Hin as [Hin|Hin]; [discriminate Hin|]). exact Hin.
Defined.

Lemma validate_mac_refuses_lower_case_witness :
  ∃ msg, validate_mac "AABBCCDDEEFf" = inl (ValueError msg).
Proof.
  apply (validate_mac_refuses_lower_case "AABBCCDDEEFf" "f").
  - apply list_elem_of_In. vm_compute. tauto.
  - vm_compute. split; discriminate.
Defined.

Lemma transport_failure_witness :
  main api_down mock_loads first_seen "AABBCCDDEEFF" (Some "key") []
  = ({| printed := [PrintStr banner; PrintStr "Connection refused"];
        uncaught := None |},
     [] ++ [request_for (strip "AABBCCDDEEFF") (Some "key")]).
Proof.
  exact (proj2 (transport_failure_prints_banner
                  api_down mock_loads first_seen
                  "AABBCCDDEEFF" (Some "key") [] [] [] [] "AABBCCDDEEFF" []
                  "Connection refused"
                  eq_refl eq_refl eq_refl eq_refl eq_refl)).
Defined.

Lemma stateless_api_outcome_ignores_order_witness :
  ∃ results2 sent1 sent2,
    get_mac_details (api_answers 200 acme_text) mock_loads last_seen
      "AABBCCDDEEFF,AA:BB:CC:DD:EE:FF" (Some "key") []
    = (inr results2, [] ++ sent2)
    ∧ [request_for "AABBCCDDEEFF" (Some "key");
       request_for "AA:BB:CC:DD:EE:FF" (Some "key")] = [] ++ sent1
    ∧ [<["companyname" := PStr "Acme"]> {["mac" := PStr "AABBCCDDEEFF"]};
       <["companyname" := PStr "Acme"]> {["mac" := PStr "AA:BB:CC:DD:EE:FF"]}]
      ≡ₚ results2
    ∧ sent1 ≡ₚ sent2.
Proof.
  apply (stateless_api_outcome_ignores_order
           (api_answers 200 acme_text) mock_loads first_seen last_seen
           "AABBCCDDEEFF,AA:BB:CC:DD:EE:FF" (Some "key") []
           [request_for "AABBCCDDEEFF" (Some "key");
            request_for "AA:BB:CC:DD:EE:FF" (Some "key")]
           [<["companyname" := PStr "Acme"]> {["mac" := PStr "AABBCCDDEEFF"]};
            <["companyname" := PStr "Acme"]> {["mac" := PStr "AA:BB:CC:DD:EE:FF"]}]
           (api_answers_stateless 200 acme_text) first_seen_ok last_seen_ok).
  reflexivity.
Defined.
